(** * Rabbit Lyrics: the timestamp parser, the active-line synchronizer and
      the scroll animator of [dist/rabbit-lyrics.js], embedded in Rocq.

    The embedding follows the class [RabbitLyrics] method by method.  JS
    numbers are IEEE-754 binary64 values ([spec_float] with precision 53 and
    maximal exponent 1024), strings are sequences of code units, the DOM
    nodes the class owns are records held in a store ([lineElements]) and
    referred to by position. *)

From Stdlib Require Import ZArith Ascii String SpecFloat Sorted.
From stdpp Require Import base list.

Open Scope string_scope.

(** ** JS numbers *)

Module JSNumber.

Definition number := spec_float.

Definition prec : Z := 53.
Definition emax : Z := 1024.

Definition add : number -> number -> number := SFadd prec emax.
Definition sub : number -> number -> number := SFsub prec emax.
Definition mul : number -> number -> number := SFmul prec emax.
Definition div : number -> number -> number := SFdiv prec emax.

(** [a <= b], [a >= b], [a == b], [a != b] on numbers. *)
Definition le (a b : number) : bool := SFleb a b.
Definition ge (a b : number) : bool := SFleb b a.
Definition eq (a b : number) : bool := SFeqb a b.
Definition neq (a b : number) : bool := negb (SFeqb a b).

Definition Infinity : number := S754_infinity false.
Definition zero : number := S754_zero false.

(** The number nearest to an integer (ties to even). *)
Definition ofZ (n : Z) : number := binary_normalize prec emax n 0 false.

(** The number nearest to the fraction [n / d] of two non-negative
    integers, [d] positive (ties to even): the value of a decimal
    literal whose digits spell [n] with [d] a power of ten. *)
Definition ofRatio (n : Z) (d : positive) : number :=
  match n with
  | Zpos p => SFdiv prec emax (S754_finite false p 0) (S754_finite false d 0)
  | _ => S754_zero false
  end.

Definition isNaN (a : number) : bool :=
  match a with S754_nan => true | _ => false end.

End JSNumber.

(** ** JS strings *)

Module JSString.

Definition isDigit (c : ascii) : bool :=
  (Ascii.leb "0" c && Ascii.leb c "9")%bool.

(** White space and line terminators removed by [String.prototype.trim].
    A string is a sequence of code units below 256 (Latin-1 text); among
    them these are TAB, LF, VT, FF, CR, SP and NBSP. *)
Definition isSpace (c : ascii) : bool :=
  let n := nat_of_ascii c in
  ((9 <=? n) && (n <=? 13) || (n =? 32) || (n =? 160))%nat%bool.

Fixpoint trimStart (s : string) : string :=
  match s with
  | String c s' => if isSpace c then trimStart s' else s
  | EmptyString => EmptyString
  end.

(** [trimEnd] keeps a character when it is not a space or when something
    is kept after it. *)
Fixpoint trimEnd (s : string) : string :=
  match s with
  | String c s' =>
      match trimEnd s' with
      | EmptyString => if isSpace c then EmptyString else String c EmptyString
      | t => String c t
      end
  | EmptyString => EmptyString
  end.

Definition trim (s : string) : string := trimEnd (trimStart s).

Definition LF : ascii := ascii_of_nat 10.

(** [s.split('\n')]: the pieces between line feeds; never empty. *)
Fixpoint splitLines (s : string) : list string :=
  match s with
  | EmptyString => [EmptyString]
  | String c s' =>
      if Ascii.eqb c LF then EmptyString :: splitLines s'
      else match splitLines s' with
           | piece :: rest => String c piece :: rest
           | [] => [String c EmptyString]
           end
  end.

(** [s.indexOf(p) >= 0] *)
Fixpoint includes (p s : string) : bool :=
  (String.prefix p s ||
   match s with
   | String _ s' => includes p s'
   | EmptyString => false
   end)%bool.

(** The longest run of decimal digits at the start of [s], and the rest. *)
Fixpoint spanDigits (s : string) : string * string :=
  match s with
  | String c s' =>
      if isDigit c then let '(d, r) := spanDigits s' in (String c d, r)
      else (EmptyString, s)
  | EmptyString => (EmptyString, EmptyString)
  end.

Definition digitValue (c : ascii) : Z := Z.of_nat (nat_of_ascii c) - 48.

(** The integer spelled by a string of decimal digits, read after [acc]. *)
Fixpoint decimalValue (acc : Z) (s : string) : Z :=
  match s with
  | String c s' => decimalValue (10 * acc + digitValue c) s'
  | EmptyString => acc
  end.

End JSString.

(** ** The time stamp pattern [\[\d+:\d+\.\d+\]] *)

Module TimeStampRegExp.
Import JSString.

(** One time stamp found in a subject string: the whole match and the
    digits of its minutes, seconds and fraction. *)
Record token := Token { minutes : string; seconds : string; fraction : string }.

Definition tokenText (t : token) : string :=
  "[" ++ minutes t ++ ":" ++ seconds t ++ "." ++ fraction t ++ "]".

(** Try the pattern at the very start of [s]; on success also give what
    follows the match.  Each [\d+] is followed by a character that is not
    a digit, so the greedy match is the only one. *)
Definition matchHere (s : string) : option (token * string) :=
  match s with
  | String "[" s1 =>
      match spanDigits s1 with
      | (String c m, String ":" s2) =>
          match spanDigits s2 with
          | (String c' sec, String "." s3) =>
              match spanDigits s3 with
              | (String c'' f, String "]" rest) =>
                  Some (Token (String c m) (String c' sec) (String c'' f), rest)
              | _ => None
              end
          | _ => None
          end
      | _ => None
      end
  | _ => None
  end.

(** [s.match(/\[(\d+):(\d+\.\d+)\]/)]: the leftmost match, or null. *)
Fixpoint exec (s : string) : option token :=
  match matchHere s with
  | Some (t, _) => Some t
  | None =>
      match s with
      | String _ s' => exec s'
      | EmptyString => None
      end
  end.

(** [s.match(/\[\d+:\d+\.\d+\]/g) || []]: every match from left to
    right, the search resuming after the end of the previous match
    ([skip] counts the code units of that match still to pass). *)
Fixpoint matchAllFrom (skip : nat) (s : string) : list token :=
  match s with
  | EmptyString => []
  | String _ s' =>
      match skip with
      | S k => matchAllFrom k s'
      | O =>
          match matchHere s with
          | Some (t, _) => t :: matchAllFrom (String.length (tokenText t) - 1) s'
          | None => matchAllFrom 0 s'
          end
      end
  end.

Definition matchAll (s : string) : list token := matchAllFrom 0 s.

(** [s.match(/^\[\d+:\d+\.\d+\]/g) || []] *)
Definition matchStart (s : string) : list token :=
  match matchHere s with
  | Some (t, _) => [t]
  | None => []
  end.

(** [s.match(/\[\d+:\d+\.\d+\]$/g) || []]: the leftmost position where
    the pattern matches up to the end of the subject. *)
Fixpoint matchEnd (s : string) : list token :=
  match matchHere s with
  | Some (t, EmptyString) => [t]
  | _ =>
      match s with
      | String _ s' => matchEnd s'
      | EmptyString => []
      end
  end.

(** [s.replace(/\[\d+:\d+\.\d+\]/g, '')] *)
Fixpoint removeAllFrom (skip : nat) (s : string) : string :=
  match s with
  | EmptyString => EmptyString
  | String c s' =>
      match skip with
      | S k => removeAllFrom k s'
      | O =>
          match matchHere s with
          | Some (t, _) => removeAllFrom (String.length (tokenText t) - 1) s'
          | None => String c (removeAllFrom 0 s')
          end
      end
  end.

Definition removeAll (s : string) : string := removeAllFrom 0 s.

End TimeStampRegExp.

Import JSNumber JSString TimeStampRegExp.

(** [parseInt(digits)] and [parseFloat(int.frac)] on the capture groups
    of the pattern: the number nearest to the decimal value read, as
    engines compute it (the language lets them drop digits after the
    twentieth). *)
Definition parseInt (digits : string) : number := ofZ (decimalValue 0 digits).

Definition parseFloat (int frac : string) : number :=
  ofRatio (decimalValue 0 (int ++ frac)) (Z.to_pos (10 ^ Z.of_nat (String.length frac))).

(** [decodeTimeStamp(timeStamp)].  [None] is the TypeError raised by
    [results.length] when the pattern does not match ([results] is null);
    a match always carries the whole text and the two groups, so
    [results.length === 3] holds whenever [results] is not null. *)
Definition decodeTimeStamp (timeStamp : string) : option number :=
  match exec timeStamp with
  | Some results =>
      Some (add (mul (parseInt (minutes results)) (ofZ 60))
                (parseFloat (seconds results) (fraction results)))
  | None => None
  end.

(** ** The object state *)

(** A line [<div>]: its [dataset.start] and [dataset.end] (stored by the DOM
    as strings; every number read back from its string is the number that
    was written, so they are kept as numbers), its [innerHTML], and whether
    its class list contains ['active'].  A data attribute that was never
    written reads as [undefined], which is NaN in every comparison. *)
Record LineElement := {
  dataStart : number;
  dataEnd : number;
  innerHTML : string;
  active : bool
}.

Definition setStart (v : number) (el : LineElement) : LineElement :=
  {| dataStart := v; dataEnd := dataEnd el; innerHTML := innerHTML el; active := active el |}.
Definition setEnd (v : number) (el : LineElement) : LineElement :=
  {| dataStart := dataStart el; dataEnd := v; innerHTML := innerHTML el; active := active el |}.
Definition setInnerHTML (h : string) (el : LineElement) : LineElement :=
  {| dataStart := dataStart el; dataEnd := dataEnd el; innerHTML := h; active := active el |}.
Definition setActive (b : bool) (el : LineElement) : LineElement :=
  {| dataStart := dataStart el; dataEnd := dataEnd el; innerHTML := innerHTML el; active := b |}.

(** [document.createElement('div')] with [className = 'line']. *)
Definition createLine : LineElement :=
  {| dataStart := S754_nan; dataEnd := S754_nan; innerHTML := EmptyString; active := false |}.

(** What the container [this.element] holds: markup this object did not
    write, seen through its [textContent] and [innerHTML], or the line
    elements appended by the last parse, which are the entries of
    [lineElements] from position [first] on. *)
Inductive Content :=
| Markup (text html : string)
| Lines (first : nat).

(** The object.  [element = None] is a missing container.  [scrollTop] is
    the target [this.scrollTop], [elementScrollTop] is
    [this.element.scrollTop]; the container is taken to accept every scroll
    position it is given.  [scrollerInterval] tells whether the interval
    whose handle is [this.scrollerInterval] is scheduled: every
    [setInterval] of the class is preceded by [clearInterval] of the
    previous handle, so at most one is. *)
Record RabbitLyrics := {
  element : option Content;
  elementScrollTop : number;
  lineElements : list LineElement;
  currentLine : Z;
  scrollerIntervalDuration : number;
  scrollerIntervalStep : number;
  scrollTop : number;
  scrollerTimer : number;
  scrollerInterval : bool
}.

Definition withElement (c : option Content) (self : RabbitLyrics) : RabbitLyrics :=
  {| element := c; elementScrollTop := elementScrollTop self;
     lineElements := lineElements self; currentLine := currentLine self;
     scrollerIntervalDuration := scrollerIntervalDuration self;
     scrollerIntervalStep := scrollerIntervalStep self;
     scrollTop := scrollTop self; scrollerTimer := scrollerTimer self;
     scrollerInterval := scrollerInterval self |}.
Definition withElementScrollTop (v : number) (self : RabbitLyrics) : RabbitLyrics :=
  {| element := element self; elementScrollTop := v;
     lineElements := lineElements self; currentLine := currentLine self;
     scrollerIntervalDuration := scrollerIntervalDuration self;
     scrollerIntervalStep := scrollerIntervalStep self;
     scrollTop := scrollTop self; scrollerTimer := scrollerTimer self;
     scrollerInterval := scrollerInterval self |}.
Definition withLineElements (l : list LineElement) (self : RabbitLyrics) : RabbitLyrics :=
  {| element := element self; elementScrollTop := elementScrollTop self;
     lineElements := l; currentLine := currentLine self;
     scrollerIntervalDuration := scrollerIntervalDuration self;
     scrollerIntervalStep := scrollerIntervalStep self;
     scrollTop := scrollTop self; scrollerTimer := scrollerTimer self;
     scrollerInterval := scrollerInterval self |}.
Definition withCurrentLine (i : Z) (self : RabbitLyrics) : RabbitLyrics :=
  {| element := element self; elementScrollTop := elementScrollTop self;
     lineElements := lineElements self; currentLine := i;
     scrollerIntervalDuration := scrollerIntervalDuration self;
     scrollerIntervalStep := scrollerIntervalStep self;
     scrollTop := scrollTop self; scrollerTimer := scrollerTimer self;
     scrollerInterval := scrollerInterval self |}.
Definition withScrollTop (v : number) (self : RabbitLyrics) : RabbitLyrics :=
  {| element := element self; elementScrollTop := elementScrollTop self;
     lineElements := lineElements self; currentLine := currentLine self;
     scrollerIntervalDuration := scrollerIntervalDuration self;
     scrollerIntervalStep := scrollerIntervalStep self;
     scrollTop := v; scrollerTimer := scrollerTimer self;
     scrollerInterval := scrollerInterval self |}.
Definition withScrollerTimer (v : number) (self : RabbitLyrics) : RabbitLyrics :=
  {| element := element self; elementScrollTop := elementScrollTop self;
     lineElements := lineElements self; currentLine := currentLine self;
     scrollerIntervalDuration := scrollerIntervalDuration self;
     scrollerIntervalStep := scrollerIntervalStep self;
     scrollTop := scrollTop self; scrollerTimer := v;
     scrollerInterval := scrollerInterval self |}.
Definition withScrollerInterval (b : bool) (self : RabbitLyrics) : RabbitLyrics :=
  {| element := element self; elementScrollTop := elementScrollTop self;
     lineElements := lineElements self; currentLine := currentLine self;
     scrollerIntervalDuration := scrollerIntervalDuration self;
     scrollerIntervalStep := scrollerIntervalStep self;
     scrollTop := scrollTop self; scrollerTimer := scrollerTimer self;
     scrollerInterval := b |}.

(** What the layout engine reports when asked: [offsetTop] and
    [offsetHeight] of the line at a position of [lineElements], and
    [clientHeight] of the container. *)
Record Layout := {
  offsetTop : nat -> number;
  offsetHeight : nat -> number;
  clientHeight : number
}.

(** ** parseLyrics *)

(** The variables of the [for] loop that are live across iterations. *)
Record ParseState := {
  elems : list LineElement;
  lastTime : number;
  lineElementsWithoutEndingTime : list nat
}.

(** [lineElementsWithoutEndingTime.forEach(element => element.dataset.end =
    this.decodeTimeStamp(stamp))] *)
Fixpoint closeEnds (stamp : string) (pending : list nat) (els : list LineElement)
  : option (list LineElement) :=
  match pending with
  | [] => Some els
  | j :: rest =>
      v ← decodeTimeStamp stamp;
      closeEnds stamp rest (alter (setEnd v) j els)
  end.

(** One iteration of the loop on the raw line [raw]. *)
Definition parseLine (raw : string) (st : ParseState) : option ParseState :=
  let i := length (elems st) in
  let els := (elems st ++ [createLine])%list in
  let line := trim raw in
  let timeStamps := matchAll line in
  let beginningTimeStamp := matchStart line in
  let endingTimeStamp := matchEnd line in
  '(els, pending) ←
    match timeStamps, lineElementsWithoutEndingTime st with
    | first :: _, _ :: _ =>
        els ← closeEnds (tokenText first) (lineElementsWithoutEndingTime st) els;
        Some (els, [])
    | _, _ => Some (els, lineElementsWithoutEndingTime st)
    end;
  '(els, last) ←
    match beginningTimeStamp with
    | b :: _ =>
        v ← decodeTimeStamp (tokenText b);
        v' ← decodeTimeStamp (tokenText b);
        Some (alter (setStart v) i els, v')
    | [] => Some (alter (setStart (lastTime st)) i els, lastTime st)
    end;
  '(els, last, pending) ←
    match endingTimeStamp with
    | e :: _ =>
        v ← decodeTimeStamp (tokenText e);
        v' ← decodeTimeStamp (tokenText e);
        Some (alter (setEnd v) i els, v', pending)
    | [] => Some (alter (setEnd Infinity) i els, last, (pending ++ [i])%list)
    end;
  let line := removeAll line in
  let line := match line with EmptyString => "&nbsp;" | _ => line end in
  Some {| elems := alter (setInnerHTML line) i els;
          lastTime := last;
          lineElementsWithoutEndingTime := pending |}.

Fixpoint parseLines (lines : list string) (st : ParseState) : option ParseState :=
  match lines with
  | [] => Some st
  | raw :: rest => st' ← parseLine raw st; parseLines rest st'
  end.

(** The fields the constructor sets before it calls [parseLyrics], on a
    container holding [text] (its [textContent]) written as [html] (its
    [innerHTML]); the fields it leaves unset read as [undefined]. *)
Definition fields (text html : string) : RabbitLyrics :=
  {| element := Some (Markup text html);
     elementScrollTop := zero;
     lineElements := [];
     currentLine := (-1)%Z;
     scrollerIntervalDuration := ofZ 200;
     scrollerIntervalStep := ofZ 10;
     scrollTop := S754_nan;
     scrollerTimer := S754_nan;
     scrollerInterval := false |}.

Section Browser.

(** The text content of the nodes the browser builds from an HTML
    fragment assigned to [innerHTML]. *)
Variable textOfHTML : string -> string.

Definition textContent (self : RabbitLyrics) (c : Content) : string :=
  match c with
  | Markup text _ => text
  | Lines first =>
      String.concat EmptyString (map (fun el => textOfHTML (innerHTML el))
                            (drop first (lineElements self)))
  end.

(** [this.element.innerHTML.indexOf('<div') >= 0]; a line element is
    serialized as [<div class="line" ...>]. *)
Definition innerHTMLHasDiv (self : RabbitLyrics) (c : Content) : bool :=
  match c with
  | Markup _ html => includes "<div" html
  | Lines first => bool_decide (first < length (lineElements self))
  end.

(** [None] is an exception. *)
Definition parseLyrics (self : RabbitLyrics) : option RabbitLyrics :=
  match element self with
  | None => Some self
  | Some c =>
      let lines := splitLines (trim (textContent self c)) in
      if (length lines <=? 1)%nat && innerHTMLHasDiv self c then Some self
      else
        let self := withElement (Some (Lines (length (lineElements self)))) self in
        st ← parseLines lines {| elems := lineElements self;
                                 lastTime := zero;
                                 lineElementsWithoutEndingTime := [] |};
        Some (withLineElements (elems st) self)
  end.

(** [enableLyrics()]; [mediaElement] tells whether [this.mediaElement]
    is set. *)
Definition enableLyrics (mediaElement : bool) (self : RabbitLyrics) : RabbitLyrics :=
  if mediaElement then withElementScrollTop zero self else self.

(** [new RabbitLyrics({element, mediaElement})] *)
Definition construct (text html : string) (mediaElement : bool) : option RabbitLyrics :=
  self ← parseLyrics (fields text html);
  Some (enableLyrics mediaElement self).

End Browser.

(** ** synchronizer, gotoLine, scroller *)

(** [if (!element.classList.contains('active')) { changed = true;
    element.classList.add('active'); }] and its mirror image. *)
Definition activate (el : LineElement) (changed : bool) : LineElement * bool :=
  if negb (active el) then (setActive true el, true) else (el, changed).

Definition deactivate (el : LineElement) (changed : bool) : LineElement * bool :=
  if active el then (setActive false el, true) else (el, changed).

(** The [forEach] of [synchronizer] from position [i] on.  The elements of
    [lineElements] are distinct nodes, so [lineElements.indexOf(element)]
    is the position of the element being visited. *)
Fixpoint synchronizeFrom (time : number) (current : Z) (i : nat)
    (els : list LineElement) (changed : bool) (activeLineElements : list nat)
  : list LineElement * bool * list nat :=
  match els with
  | [] => ([], changed, activeLineElements)
  | el :: rest =>
      if ge time (dataStart el) && le time (dataEnd el) && neq (dataEnd el) Infinity then
        let '(el, changed) := activate el changed in
        let '(rest, changed, act) :=
          synchronizeFrom time current (S i) rest changed (activeLineElements ++ [i])%list in
        (el :: rest, changed, act)
      else if (0 <=? current)%Z && (Z.of_nat i =? current)%Z then
        let '(el, changed) := activate el changed in
        let '(rest, changed, act) :=
          synchronizeFrom time current (S i) rest changed (activeLineElements ++ [i])%list in
        (el :: rest, changed, act)
      else
        let '(el, changed) := deactivate el changed in
        let '(rest, changed, act) :=
          synchronizeFrom time current (S i) rest changed activeLineElements in
        (el :: rest, changed, act)
  end.

(** The block shared by [synchronizer] and [gotoLine]:
    [if (changed && activeLineElements.length > 0) { ... }]. *)
Definition startScroller (layout : Layout) (changed : bool)
    (activeLineElements : list nat) (self : RabbitLyrics) : RabbitLyrics :=
  match changed, activeLineElements with
  | true, first :: _ =>
      let final := List.last activeLineElements first in
      let activeLinesOffsetTop :=
        div (add (add (offsetTop layout first) (offsetTop layout final))
                 (offsetHeight layout final)) (ofZ 2) in
      let self :=
        withScrollTop (sub activeLinesOffsetTop (div (clientHeight layout) (ofZ 2))) self in
      let self := withScrollerInterval false self in
      let self := withScrollerTimer (scrollerIntervalDuration self) self in
      withScrollerInterval true self
  | _, _ => self
  end.

(** [synchronizer()], [time] being [this.mediaElement.currentTime]. *)
Definition synchronizer (time : number) (layout : Layout) (self : RabbitLyrics)
  : RabbitLyrics :=
  let '(els, changed, activeLineElements) :=
    synchronizeFrom time (currentLine self) 0 (lineElements self) false [] in
  startScroller layout changed activeLineElements (withLineElements els self).

(** The [for] loop of [gotoLine] from position [i] on; [line] is an
    integer (a number that is not an integer equals no position). *)
Fixpoint gotoLineFrom (line : Z) (i : nat) (els : list LineElement)
    (changed : bool) (activeLineElements : list nat) (current : Z)
  : list LineElement * bool * list nat * Z :=
  match els with
  | [] => ([], changed, activeLineElements, current)
  | el :: rest =>
      if (line =? Z.of_nat i)%Z then
        let '(el, changed) := activate el changed in
        let '(rest, changed, act, current) :=
          gotoLineFrom line (S i) rest changed (activeLineElements ++ [i])%list line in
        (el :: rest, changed, act, current)
      else
        let '(el, changed) := deactivate el changed in
        let '(rest, changed, act, current) :=
          gotoLineFrom line (S i) rest changed activeLineElements current in
        (el :: rest, changed, act, current)
  end.

Definition gotoLine (line : Z) (layout : Layout) (self : RabbitLyrics) : RabbitLyrics :=
  let '(els, changed, activeLineElements, current) :=
    gotoLineFrom line 0 (lineElements self) false [] (currentLine self) in
  startScroller layout changed activeLineElements
    (withCurrentLine current (withLineElements els self)).

(** [scroller()], one tick of the interval. *)
Definition scroller (self : RabbitLyrics) : RabbitLyrics :=
  if le (scrollerTimer self) zero then withScrollerInterval false self
  else
    let distance := sub (scrollTop self) (elementScrollTop self) in
    let movement := div (mul distance (scrollerIntervalStep self)) (scrollerTimer self) in
    let self := withElementScrollTop (add (elementScrollTop self) movement) self in
    withScrollerTimer (sub (scrollerTimer self) (scrollerIntervalStep self)) self.

(** The interval fires [scroller] as long as it is scheduled. *)
Definition tick (self : RabbitLyrics) : RabbitLyrics :=
  if scrollerInterval self then scroller self else self.

(** ** The synchronizer of the unbundled source

    The class as written before bundling has neither [currentLine] nor
    [gotoLine], and its [synchronizer] tests the time window only. *)
Module Unbundled.

Fixpoint synchronizeFrom (time : number) (i : nat)
    (els : list LineElement) (changed : bool) (activeLineElements : list nat)
  : list LineElement * bool * list nat :=
  match els with
  | [] => ([], changed, activeLineElements)
  | el :: rest =>
      if ge time (dataStart el) && le time (dataEnd el) then
        let '(el, changed) := activate el changed in
        let '(rest, changed, act) :=
          synchronizeFrom time (S i) rest changed (activeLineElements ++ [i])%list in
        (el :: rest, changed, act)
      else
        let '(el, changed) := deactivate el changed in
        let '(rest, changed, act) :=
          synchronizeFrom time (S i) rest changed activeLineElements in
        (el :: rest, changed, act)
  end.

Definition synchronizer (time : number) (layout : Layout) (self : RabbitLyrics)
  : RabbitLyrics :=
  let '(els, changed, activeLineElements) :=
    synchronizeFrom time 0 (lineElements self) false [] in
  startScroller layout changed activeLineElements (withLineElements els self).

End Unbundled.

(** ** What the claims speak of *)

(** The playback position lies in the window of the line. *)
Definition inWindow (time : number) (el : LineElement) : Prop :=
  le (dataStart el) time = true /\ le time (dataEnd el) = true.

(** The end bound of the line is known. *)
Definition resolved (el : LineElement) : Prop := dataEnd el <> Infinity.

(** The seconds a time stamp stands for: minutes times sixty plus
    seconds and fraction, in binary64 arithmetic. *)
Definition timeOf (t : token) : number :=
  add (mul (ofZ (decimalValue 0 (minutes t))) (ofZ 60))
      (ofRatio (decimalValue 0 (seconds t ++ fraction t))
               (Z.to_pos (10 ^ Z.of_nat (String.length (fraction t))))).

(** A string of one or more decimal digits. *)
Definition isDigits (s : string) : Prop :=
  s <> EmptyString /\ Forall (fun c => isDigit c = true) (list_ascii_of_string s).

(** [n] firings of the interval. *)
Fixpoint ticks (n : nat) (self : RabbitLyrics) : RabbitLyrics :=
  match n with
  | O => self
  | S n' => ticks n' (tick self)
  end.

(** [onTimeUpdate] at each playback position of a list, in turn; the
    result lists the object after each call. *)
Fixpoint sweep (times : list number) (layout : Layout) (self : RabbitLyrics)
  : list RabbitLyrics :=
  match times with
  | [] => []
  | t :: rest =>
      let self' := synchronizer t layout self in
      self' :: sweep rest layout self'
  end.

(** The active flag of line [i], [false] when there is no such line. *)
Definition activeAt (i : nat) (self : RabbitLyrics) : bool :=
  match lineElements self !! i with
  | Some el => active el
  | None => false
  end.

(** Whether [synchronizer] leaves line [i] active. *)
Definition wantActive (time : number) (current : Z) (i : nat) (el : LineElement) : bool :=
  (ge time (dataStart el) && le time (dataEnd el) && neq (dataEnd el) Infinity)
  || ((0 <=? current)%Z && (Z.of_nat i =? current)%Z).

Close Scope string_scope.

(** ** Notions used by the proofs *)

(** A time stamp whose three parts are runs of digits, as the pattern
    finds them. *)
Definition wellFormed (t : token) : Prop :=
  isDigits (minutes t) /\ isDigits (seconds t) /\ isDigits (fraction t).

(** A remainder that does not go on with a digit. *)
Definition stopsDigits (r : string) : Prop :=
  match r with
  | String c _ => isDigit c = false
  | EmptyString => True
  end.

(** The [forEach] that closes the pending lines to the value [v]. *)
Definition closeAll (v : number) (pending : list nat) (els : list LineElement)
  : list LineElement :=
  foldl (fun els j => alter (setEnd v) j els) els pending.

(** The loop body with every [decodeTimeStamp] call replaced by the value
    it returns on a matched time stamp. *)
Definition parseLineResult (raw : string) (st : ParseState) : ParseState :=
  let i := length (elems st) in
  let line := trim raw in
  let els := elems st ++ [createLine] in
  let '(els, pending) :=
    match matchAll line, lineElementsWithoutEndingTime st with
    | first :: _, _ :: _ =>
        (closeAll (timeOf first) (lineElementsWithoutEndingTime st) els, [])
    | _, _ => (els, lineElementsWithoutEndingTime st)
    end in
  let start := match matchStart line with b :: _ => timeOf b | [] => lastTime st end in
  let '(final, last, pending) :=
    match matchEnd line with
    | e :: _ => (timeOf e, timeOf e, pending)
    | [] => (Infinity, start, pending ++ [i])
    end in
  let line := removeAll line in
  let line := match line with EmptyString => "&nbsp;"%string | _ => line end in
  {| elems := alter (setInnerHTML line) i
                (alter (setEnd final) i (alter (setStart start) i els));
     lastTime := last;
     lineElementsWithoutEndingTime := pending |}.

(** The loop over a list of raw lines. *)
Definition parseLinesResult (lines : list string) (st : ParseState) : ParseState :=
  foldl (fun st raw => parseLineResult raw st) st lines.

(** Playback positions that never go back. *)
Definition nondecreasing (times : list number) : Prop :=
  forall i a b, times !! i = Some a -> times !! (S i) = Some b -> le a b = true.

(** The time windows of the lines, which [synchronizer] only reads. *)
Definition windows (self : RabbitLyrics) : list (number * number) :=
  map (fun el => (dataStart el, dataEnd el)) (lineElements self).

(** The line made from an empty raw line. *)
Definition blankLine : LineElement :=
  {| dataStart := zero; dataEnd := Infinity; innerHTML := "&nbsp;"%string; active := false |}.

(** The lyrics of the first scenario. *)
Definition scenario1 : string :=
  ("[0:01.00]Hello" ++ String LF "[0:03.50]World")%string.

(** A layout in which every measure is 0. *)
Definition flatLayout : Layout :=
  {| offsetTop := fun _ => zero; offsetHeight := fun _ => zero; clientHeight := zero |}.

(** Zero, positive or plus infinity. *)
Definition nonneg (x : number) : Prop :=
  match x with
  | S754_zero _ | S754_infinity false | S754_finite false _ _ => True
  | _ => False
  end.

(** No opening bracket among the first [k] characters. *)
Fixpoint noBracket (k : nat) (s : string) : Prop :=
  match k, s with
  | S k', String c s' => c <> "["%char /\ noBracket k' s'
  | _, _ => True
  end.

(** No opening bracket at all. *)
Fixpoint plain (s : string) : Prop :=
  match s with
  | String c s' => c <> "["%char /\ plain s'
  | EmptyString => True
  end.

(** The values of the time stamps of the raw lines, in reading order. *)
Fixpoint stampsOf (lines : list string) : list number :=
  match lines with
  | [] => []
  | raw :: rest => (timeOf <$> matchAll (trim raw)) ++ stampsOf rest
  end.

(** The start the loop body gives the new line. *)
Definition lineStart (raw : string) (st : ParseState) : number :=
  match matchStart (trim raw) with b :: _ => timeOf b | [] => lastTime st end.

(** The end it gives the new line. *)
Definition lineEnd (raw : string) : number :=
  match matchEnd (trim raw) with e :: _ => timeOf e | [] => Infinity end.

(** The invariant of the loop on text whose time stamps never go back:
    the cursor [lastTime] is a number, no time stamp still to be read is
    before it, and every line made since position [n0] starts no later
    than the cursor and no later than its own end. *)
Definition cursorInvariant (n0 : nat) (st : ParseState) (rest : list string) : Prop :=
  isNaN (lastTime st) = false
  /\ (forall v, v ∈ stampsOf rest -> le (lastTime st) v = true)
  /\ (forall i el, n0 <= i -> elems st !! i = Some el ->
        le (dataStart el) (lastTime st) = true
        /\ le (dataStart el) (dataEnd el) = true).

(** ** findMediaElementBefore *)

(** An element of the page: its [tagName] and its child elements. *)
#[warnings="-register-all"]
Inductive Element := Elem (tagName : string) (children : list Element).

Definition tagName (e : Element) : string := let 'Elem t _ := e in t.
Definition children (e : Element) : list Element := let 'Elem _ cs := e in cs.

(** Where an element stands: its previous element siblings, the nearest
    first, and the place of its parent element when it has one. *)
Inductive Place :=
| Detached (previous : list Element)
| Inside (previous : list Element) (parentElement : Place).

(** What [findMediaElementBefore] returns. *)
Inductive MediaResult :=
| Null
| Undefined
| Media (e : Element).

(** [c.toLowerCase()] on a code unit. *)
Definition lowerChar (c : ascii) : ascii :=
  let n := nat_of_ascii c in
  if ((65 <=? n) && (n <=? 90))%nat then ascii_of_nat (n + 32) else c.

Fixpoint toLowerCase (s : string) : string :=
  match s with
  | EmptyString => EmptyString
  | String c s' => String (lowerChar c) (toLowerCase s')
  end.

(** [tagName.toLowerCase() === 'audio' || tagName.toLowerCase() === 'video'];
    the selector ['audio, video'] picks the same elements. *)
Definition isMediaTag (e : Element) : bool :=
  (String.eqb (toLowerCase (tagName e)) "audio"
   || String.eqb (toLowerCase (tagName e)) "video")%string.

(** [e.querySelector('audio, video')]: the first descendant of [e], in
    document order, that is an audio or video element. *)
Fixpoint querySelector (e : Element) : option Element :=
  let fix first (cs : list Element) : option Element :=
    match cs with
    | [] => None
    | c :: rest =>
        if isMediaTag c then Some c
        else match querySelector c with
             | Some m => Some m
             | None => first rest
             end
    end in
  first (children e).

(** The [while] loop over the previous siblings; [None] when it ends
    without a [return].  A media element has no [length] and no indexed
    property, so [mediaChildren[mediaChildren.length - 1]] is
    [undefined]. *)
Fixpoint scanPrevious (previous : list Element) : option MediaResult :=
  match previous with
  | [] => None
  | previousElement :: rest =>
      if isMediaTag previousElement then Some (Media previousElement)
      else match querySelector previousElement with
           | Some mediaChildren => Some Undefined
           | None => scanPrevious rest
           end
  end.

(** [findMediaElementBefore(element)] for an element that is not null. *)
Fixpoint findMediaElementBefore (element : Place) : MediaResult :=
  match element with
  | Detached previous =>
      match scanPrevious previous with
      | Some r => r
      | None => Null
      end
  | Inside previous parentElement =>
      match scanPrevious previous with
      | Some r => r
      | None => findMediaElementBefore parentElement
      end
  end.

(** ** Notions used by the further properties *)

(** The elements [findMediaElementBefore] looks at, in the order it does:
    the previous siblings of the element, then those of its parent, and
    so on. *)
Fixpoint candidates (element : Place) : list Element :=
  match element with
  | Detached previous => previous
  | Inside previous parentElement => previous ++ candidates parentElement
  end.

(** [m] is a descendant of [e]. *)
Inductive descendant (m : Element) : Element -> Prop :=
| descendant_child e : m ∈ children e -> descendant m e
| descendant_deeper e c : c ∈ children e -> descendant m c -> descendant m e.

(** The element is, or has among its descendants, an audio or video
    element. *)
Definition holdsMedia (e : Element) : bool :=
  isMediaTag e || bool_decide (is_Some (querySelector e)).

(** The positions, from [i] on, of the lines [synchronizer] leaves
    active. *)
Fixpoint wantedFrom (time : number) (current : Z) (i : nat) (els : list LineElement)
  : list nat :=
  match els with
  | [] => []
  | el :: rest =>
      if wantActive time current i el then i :: wantedFrom time current (S i) rest
      else wantedFrom time current (S i) rest
  end.

(** Some line, from [i] on, is not in the state [synchronizer] leaves it
    in. *)
Definition flipsFrom (time : number) (current : Z) (i : nat) (els : list LineElement)
  : Prop :=
  exists j el, els !! j = Some el /\ active el <> wantActive time current (i + j) el.

(** The scroll target for a first and a last active line. *)
Definition scrollTarget (layout : Layout) (first final : nat) : number :=
  sub (div (add (add (offsetTop layout first) (offsetTop layout final))
                (offsetHeight layout final)) (ofZ 2))
      (div (clientHeight layout) (ofZ 2)).

(** The override is unset or the position of a line. *)
Definition validOverride (self : RabbitLyrics) : Prop :=
  (currentLine self = -1 \/ 0 <= currentLine self < Z.of_nat (length (lineElements self)))%Z.

(** The text the loop body shows for a raw line. *)
Definition lineText (raw : string) : string :=
  let line := removeAll (trim raw) in
  match line with EmptyString => "&nbsp;"%string | _ => line end.

(** The loop state at the start of [parseLyrics]. *)
Definition parseStart (prior : list LineElement) : ParseState :=
  {| elems := prior; lastTime := zero; lineElementsWithoutEndingTime := [] |}.

(** Every pending position is that of a line already made. *)
Definition pendingBelow (st : ParseState) : Prop :=
  forall p, p ∈ lineElementsWithoutEndingTime st -> p < length (elems st).

(* ================================================================== *)
(** * Properties *)

(** ** Activation loops *)

Lemma activate_fst el c : (activate el c).1 = setActive true el.
Proof. unfold activate. destruct el as [s e h []]; reflexivity. Qed.

Lemma deactivate_fst el c : (deactivate el c).1 = setActive false el.
Proof. unfold deactivate. destruct el as [s e h []]; reflexivity. Qed.

Lemma synchronizeFrom_elems time current els :
  forall i changed act,
    (synchronizeFrom time current i els changed act).1.1
    = imap (fun j el => setActive (wantActive time current (i + j) el) el) els.
Proof.
  induction els as [|el rest IH]; intros i changed act; [reflexivity|].
  cbn [synchronizeFrom imap]. unfold wantActive at 1.
  rewrite Nat.add_0_r.
  assert (Hshift : imap ((fun j e => setActive (wantActive time current (i + j) e) e) ∘ S) rest
                   = imap (fun j e => setActive (wantActive time current (S i + j) e) e) rest).
  { apply imap_ext. intros j e _. simpl. by rewrite Nat.add_succ_r. }
  rewrite Hshift.
  destruct (ge time (dataStart el) && le time (dataEnd el) && neq (dataEnd el) Infinity).
  - pose proof (activate_fst el changed) as Ha.
    destruct (activate el changed) as [el' c'].
    specialize (IH (S i) c' (act ++ [i])).
    destruct (synchronizeFrom _ _ _ _ _ _) as [[r c''] a'']. simpl in *. by subst.
  - destruct ((0 <=? current)%Z && (Z.of_nat i =? current)%Z).
    + pose proof (activate_fst el changed) as Ha.
      destruct (activate el changed) as [el' c'].
      specialize (IH (S i) c' (act ++ [i])).
      destruct (synchronizeFrom _ _ _ _ _ _) as [[r c''] a'']. simpl in *. by subst.
    + pose proof (deactivate_fst el changed) as Ha.
      destruct (deactivate el changed) as [el' c'].
      specialize (IH (S i) c' act).
      destruct (synchronizeFrom _ _ _ _ _ _) as [[r c''] a'']. simpl in *. by subst.
Qed.

Lemma startScroller_lineElements layout changed act self :
  lineElements (startScroller layout changed act self) = lineElements self.
Proof. unfold startScroller. destruct changed, act; reflexivity. Qed.

Lemma startScroller_currentLine layout changed act self :
  currentLine (startScroller layout changed act self) = currentLine self.
Proof. unfold startScroller. destruct changed, act; reflexivity. Qed.

Lemma synchronizer_lineElements time layout self :
  lineElements (synchronizer time layout self)
  = imap (fun j el => setActive (wantActive time (currentLine self) j el) el)
         (lineElements self).
Proof.
  unfold synchronizer.
  pose proof (synchronizeFrom_elems time (currentLine self) (lineElements self) 0 false []) as H.
  destruct (synchronizeFrom _ _ _ _ _ _) as [[els c] a].
  rewrite startScroller_lineElements. simpl in *. exact H.
Qed.

Lemma synchronizer_currentLine time layout self :
  currentLine (synchronizer time layout self) = currentLine self.
Proof.
  unfold synchronizer.
  destruct (synchronizeFrom _ _ _ _ _ _) as [[els c] a].
  by rewrite startScroller_currentLine.
Qed.

Lemma eq_Infinity x : eq x Infinity = true <-> x = Infinity.
Proof.
  unfold eq, SFeqb, Infinity. split.
  - destruct x as [ [] | [] | | [] ? ? ]; simpl; congruence.
  - intros ->. reflexivity.
Qed.

Lemma neq_Infinity x : neq x Infinity = true <-> x <> Infinity.
Proof.
  unfold neq. rewrite negb_true_iff, <- not_true_iff_false. by rewrite eq_Infinity.
Qed.

Lemma wantActive_spec time current i el :
  wantActive time current i el = true <->
  (inWindow time el /\ resolved el) \/ (0 <= current /\ current = Z.of_nat i)%Z.
Proof.
  unfold wantActive, inWindow, resolved, ge.
  rewrite orb_true_iff, !andb_true_iff, neq_Infinity, Z.leb_le, Z.eqb_eq.
  intuition congruence.
Qed.

(** C1.  After [synchronizer] has read the playback position [time], line
    [i] is active exactly when [time] lies in its window and its end is
    not Infinity, or the override [currentLine] is set and equals [i];
    otherwise it is inactive.  Its other attributes are kept.  A line whose
    end is Infinity and that is not the override is inactive. *)
Theorem synchronizer_active_iff time layout self (i : nat) el :
  lineElements self !! i = Some el ->
  exists el',
    lineElements (synchronizer time layout self) !! i = Some el'
    /\ dataStart el' = dataStart el /\ dataEnd el' = dataEnd el
    /\ innerHTML el' = innerHTML el
    /\ (active el' = true <->
        (inWindow time el /\ resolved el)
        \/ (0 <= currentLine self /\ currentLine self = Z.of_nat i)%Z)
    /\ (dataEnd el = Infinity -> currentLine self <> Z.of_nat i -> active el' = false).
Proof.
  intros Hi. rewrite synchronizer_lineElements, list_lookup_imap, Hi. simpl.
  eexists; split; [reflexivity|]. simpl.
  repeat split; try apply wantActive_spec.
  intros Hinf Hcur. apply not_true_iff_false. rewrite wantActive_spec.
  unfold resolved. intuition congruence.
Qed.

Lemma gotoLineFrom_elems line els :
  forall i changed act current,
    (gotoLineFrom line i els changed act current).1.1.1
    = imap (fun j el => setActive (line =? Z.of_nat (i + j))%Z el) els.
Proof.
  induction els as [|el rest IH]; intros i changed act current; [reflexivity|].
  cbn [gotoLineFrom imap]. rewrite Nat.add_0_r.
  assert (Hshift : imap ((fun j e => setActive (line =? Z.of_nat (i + j))%Z e) ∘ S) rest
                   = imap (fun j e => setActive (line =? Z.of_nat (S i + j))%Z e) rest).
  { apply imap_ext. intros j e _. simpl. by rewrite Nat.add_succ_r. }
  rewrite Hshift.
  destruct (line =? Z.of_nat i)%Z.
  - pose proof (activate_fst el changed) as Ha.
    destruct (activate el changed) as [el' c'].
    specialize (IH (S i) c' (act ++ [i]) line).
    destruct (gotoLineFrom _ _ _ _ _ _) as [[[r c''] a''] cur'']. simpl in *. by subst.
  - pose proof (deactivate_fst el changed) as Ha.
    destruct (deactivate el changed) as [el' c'].
    specialize (IH (S i) c' act current).
    destruct (gotoLineFrom _ _ _ _ _ _) as [[[r c''] a''] cur'']. simpl in *. by subst.
Qed.

(** No position from [i] on equals [line]: nothing is collected and
    [currentLine] is not written. *)
Lemma gotoLineFrom_miss line els :
  forall i changed act current,
    (line < Z.of_nat i \/ Z.of_nat (i + length els) <= line)%Z ->
    let r := gotoLineFrom line i els changed act current in
    r.1.2 = act /\ r.2 = current.
Proof.
  induction els as [|el rest IH]; intros i changed act current Hout; [done|].
  cbn [gotoLineFrom]. simpl in Hout.
  destruct (Z.eqb_spec line (Z.of_nat i)) as [->|Hne]; [lia|].
  destruct (deactivate el changed) as [el' c'].
  specialize (IH (S i) c' act current).
  destruct (gotoLineFrom _ _ _ _ _ _) as [[[r c''] a''] cur'']. simpl in *.
  apply IH. lia.
Qed.

(** Position [line] is met: it is the only one collected and
    [currentLine] becomes [line]. *)
Lemma gotoLineFrom_hit line els :
  forall i changed act current,
    (Z.of_nat i <= line < Z.of_nat (i + length els))%Z ->
    let r := gotoLineFrom line i els changed act current in
    r.1.2 = (act ++ [Z.to_nat line])%list /\ r.2 = line.
Proof.
  induction els as [|el rest IH]; intros i changed act current Hin.
  { simpl in Hin. lia. }
  cbn [gotoLineFrom]. simpl in Hin.
  destruct (Z.eqb_spec line (Z.of_nat i)) as [->|Hne].
  - destruct (activate el changed) as [el' c'].
    pose proof (gotoLineFrom_miss (Z.of_nat i) rest (S i) c' (act ++ [i])%list
                  (Z.of_nat i) ltac:(lia)) as Hm.
    destruct (gotoLineFrom _ _ _ _ _ _) as [[[r c''] a''] cur'']. simpl in *.
    by rewrite Nat2Z.id.
  - destruct (deactivate el changed) as [el' c'].
    specialize (IH (S i) c' act current).
    destruct (gotoLineFrom _ _ _ _ _ _) as [[[r c''] a''] cur'']. simpl in *.
    apply IH. lia.
Qed.

Lemma gotoLine_lineElements line layout self :
  lineElements (gotoLine line layout self)
  = imap (fun j el => setActive (line =? Z.of_nat j)%Z el) (lineElements self).
Proof.
  unfold gotoLine.
  pose proof (gotoLineFrom_elems line (lineElements self) 0 false [] (currentLine self)) as H.
  destruct (gotoLineFrom _ _ _ _ _ _) as [[[els c] a] cur].
  rewrite startScroller_lineElements. simpl in *. exact H.
Qed.

(** C5.  For an index [i] in range, [gotoLine(i)] leaves line [i] active
    and every other line inactive, whatever their time windows, and
    records [i] as the override. *)
Theorem gotoLine_exclusive (i : nat) layout self :
  i < length (lineElements self) ->
  let self' := gotoLine (Z.of_nat i) layout self in
  currentLine self' = Z.of_nat i
  /\ length (lineElements self') = length (lineElements self)
  /\ forall (j : nat) el,
       lineElements self !! j = Some el ->
       lineElements self' !! j = Some (setActive (bool_decide (j = i)) el).
Proof.
  intros Hi self'. subst self'. split; [|split].
  - unfold gotoLine.
    pose proof (gotoLineFrom_hit (Z.of_nat i) (lineElements self) 0 false []
                  (currentLine self) ltac:(simpl; lia)) as [_ Hcur].
    destruct (gotoLineFrom _ _ _ _ _ _) as [[[els c] a] cur].
    rewrite startScroller_currentLine. simpl in *. by subst.
  - by rewrite gotoLine_lineElements, length_imap.
  - intros j el Hj. rewrite gotoLine_lineElements, list_lookup_imap, Hj. simpl.
    do 2 f_equal. case_bool_decide as Hd.
    + subst. apply Z.eqb_refl.
    + apply Z.eqb_neq. lia.
Qed.

Lemma gotoLine_exclusive_witness :
  let self := {| element := None; elementScrollTop := zero;
                 lineElements := [setActive true createLine; createLine];
                 currentLine := (-1)%Z;
                 scrollerIntervalDuration := ofZ 200; scrollerIntervalStep := ofZ 10;
                 scrollTop := zero; scrollerTimer := zero; scrollerInterval := false |} in
  let layout := {| offsetTop := fun _ => zero; offsetHeight := fun _ => zero;
                   clientHeight := zero |} in
  activeAt 0 (gotoLine (Z.of_nat 1) layout self) = false
  /\ activeAt 1 (gotoLine (Z.of_nat 1) layout self) = true.
Proof.
  intros self layout.
  destruct (gotoLine_exclusive 1 layout self ltac:(simpl; lia)) as (_ & _ & H).
  unfold activeAt.
  rewrite (H 0 _ eq_refl), (H 1 _ eq_refl). split; reflexivity.
Defined.

(** C10.  For an index outside the range of the parsed lines,
    [gotoLine] leaves every line inactive and changes nothing else: the
    override [currentLine], the scroll target, the timer and the interval
    are as before. *)
Theorem gotoLine_out_of_range (line : Z) layout self :
  (line < 0 \/ Z.of_nat (length (lineElements self)) <= line)%Z ->
  gotoLine line layout self
  = withLineElements (map (setActive false) (lineElements self)) self.
Proof.
  intros Hout. unfold gotoLine.
  pose proof (gotoLineFrom_elems line (lineElements self) 0 false [] (currentLine self)) as He.
  pose proof (gotoLineFrom_miss line (lineElements self) 0 false [] (currentLine self)
                ltac:(simpl; lia)) as [Ha Hc].
  destruct (gotoLineFrom _ _ _ _ _ _) as [[[els c] a] cur]. simpl in *. subst.
  assert (imap (fun j el => setActive (line =? Z.of_nat j)%Z el) (lineElements self)
          = map (setActive false) (lineElements self)) as ->.
  { rewrite <- imap_const. apply imap_ext. intros j el Hj.
    apply lookup_lt_Some in Hj.
    replace (line =? Z.of_nat j)%Z with false; [done|].
    symmetry. apply Z.eqb_neq. lia. }
  unfold startScroller. destruct self; destruct c; reflexivity.
Qed.

Lemma gotoLine_out_of_range_witness :
  let self := {| element := None; elementScrollTop := zero;
                 lineElements := [setActive true createLine; createLine];
                 currentLine := 0%Z;
                 scrollerIntervalDuration := ofZ 200; scrollerIntervalStep := ofZ 10;
                 scrollTop := zero; scrollerTimer := zero; scrollerInterval := false |} in
  let layout := {| offsetTop := fun _ => zero; offsetHeight := fun _ => zero;
                   clientHeight := zero |} in
  gotoLine 2 layout self = withLineElements [createLine; createLine] self.
Proof.
  intros self layout.
  apply (gotoLine_out_of_range 2 layout self). right. simpl. lia.
Defined.

Lemma synchronizer_active_iff_witness :
  let self := {| element := None; elementScrollTop := zero;
                 lineElements := [setEnd (ofZ 3) (setStart (ofZ 1) createLine)];
                 currentLine := (-1)%Z;
                 scrollerIntervalDuration := ofZ 200; scrollerIntervalStep := ofZ 10;
                 scrollTop := zero; scrollerTimer := zero; scrollerInterval := false |} in
  let layout := {| offsetTop := fun _ => zero; offsetHeight := fun _ => zero;
                   clientHeight := zero |} in
  exists el', lineElements (synchronizer (ofZ 2) layout self) !! 0 = Some el'
              /\ active el' = true.
Proof.
  intros self layout.
  destruct (synchronizer_active_iff (ofZ 2) layout self 0 _ eq_refl)
    as (el' & Hl & _ & _ & _ & Hact & _).
  exists el'. split; [exact Hl|].
  apply Hact. left. split; [split; reflexivity | discriminate].
Defined.

(** ** The scroll animation *)

Lemma ticks_add n m self : ticks (n + m) self = ticks m (ticks n self).
Proof. revert self. induction n as [|n IH]; intros self; [done|]. simpl. apply IH. Qed.

Lemma ticks_cancelled n self : scrollerInterval self = false -> ticks n self = self.
Proof.
  intros Hs. induction n as [|n IH]; [done|].
  cbn [ticks]. unfold tick. by rewrite Hs.
Qed.

(** C6.  Armed with target 100 from offset 0, a budget of 200 ms and a
    step of 10 ms, the animation moves the offset by 5 at each of 20
    ticks: after [k] ticks the offset is [5 k] and the timer [200 - 10 k],
    so after 20 ticks the timer is 0 and the offset is exactly 100, in
    binary64 arithmetic, with the interval still scheduled; tick 21 cancels
    the interval and changes nothing else, and no further tick fires. *)
Theorem scroller_reaches_target self :
  scrollTop self = ofZ 100 ->
  elementScrollTop self = zero ->
  scrollerTimer self = ofZ 200 ->
  scrollerIntervalStep self = ofZ 10 ->
  scrollerInterval self = true ->
  Forall (fun k => elementScrollTop (ticks k self) = ofZ (5 * Z.of_nat k)
                   /\ scrollerTimer (ticks k self) = ofZ (200 - 10 * Z.of_nat k)
                   /\ scrollerInterval (ticks k self) = true) (seq 0 21)
  /\ scrollerTimer (ticks 20 self) = zero
  /\ elementScrollTop (ticks 20 self) = ofZ 100
  /\ ticks 21 self = withScrollerInterval false (ticks 20 self)
  /\ forall n, ticks (21 + n) self = ticks 21 self.
Proof.
  destruct self as [el est les cur dur step tgt timer itv].
  cbn [scrollTop elementScrollTop scrollerTimer scrollerIntervalStep scrollerInterval].
  intros -> -> -> -> ->.
  split; [|split; [|split; [|split]]].
  - repeat (constructor; [by vm_compute|]). constructor.
  - by vm_compute.
  - by vm_compute.
  - by vm_compute.
  - intros n. rewrite ticks_add. by apply ticks_cancelled.
Qed.

Lemma scroller_reaches_target_witness :
  let layout := {| offsetTop := fun _ => ofZ 150; offsetHeight := fun _ => ofZ 20;
                   clientHeight := ofZ 120 |} in
  exists self,
    (gotoLine 0 layout <$> construct (fun s => s) "la la"%string "la la"%string true) = Some self
    /\ scrollerInterval (ticks 20 self) = true
    /\ elementScrollTop (ticks 20 self) = ofZ 100
    /\ scrollerInterval (ticks 21 self) = false.
Proof.
  intros layout. eexists. split; [vm_compute; reflexivity|].
  match goal with |- context [ticks 20 ?s] =>
    destruct (scroller_reaches_target s eq_refl eq_refl eq_refl eq_refl eq_refl)
      as (Hall & _ & Hoff & H21 & _)
  end.
  split; [|split].
  - by destruct (Forall_lookup_1 _ _ 20 20 Hall eq_refl) as (_ & _ & H).
  - exact Hoff.
  - rewrite H21. reflexivity.
Defined.

(** ** The time stamp pattern *)

Section Pattern.
Local Open Scope string_scope.

Local Ltac only_char c :=
  destruct c as [[] [] [] [] [] [] [] []]; try discriminate.

Lemma append_assoc (a b c : string) : (a ++ b) ++ c = a ++ (b ++ c).
Proof. induction a as [|x a IH]; simpl; congruence. Qed.

Lemma append_empty_r (a : string) : a ++ EmptyString = a.
Proof. induction a as [|x a IH]; simpl; congruence. Qed.

Lemma allDigits_cons c s :
  Forall (fun c => isDigit c = true) (list_ascii_of_string (String c s))
  <-> isDigit c = true /\ Forall (fun c => isDigit c = true) (list_ascii_of_string s).
Proof. simpl. by rewrite Forall_cons. Qed.

Lemma spanDigits_app d r :
  Forall (fun c => isDigit c = true) (list_ascii_of_string d) ->
  stopsDigits r ->
  spanDigits (d ++ r) = (d, r).
Proof.
  intros Hd Hr. induction d as [|c d IH].
  - simpl. destruct r as [|c r]; [done|]. simpl in *. by rewrite Hr.
  - apply allDigits_cons in Hd as [Hc Hd]. simpl. rewrite Hc, (IH Hd). done.
Qed.

Lemma spanDigits_inv s :
  forall d r, spanDigits s = (d, r) ->
    s = d ++ r
    /\ Forall (fun c => isDigit c = true) (list_ascii_of_string d)
    /\ stopsDigits r.
Proof.
  induction s as [|c s IH]; intros d r H; simpl in H.
  - inversion H; subst. repeat split; constructor.
  - destruct (isDigit c) eqn:Hc.
    + destruct (spanDigits s) as [d' r'] eqn:Hs. inversion H; subst.
      destruct (IH _ _ eq_refl) as (-> & Hd & Hr).
      repeat split; [|done]. by apply allDigits_cons.
    + inversion H; subst. repeat split; [constructor|]. exact Hc.
Qed.

Lemma matchHere_inv s t r :
  matchHere s = Some (t, r) -> wellFormed t /\ s = tokenText t ++ r.
Proof.
  unfold matchHere. destruct s as [|c0 s1]; [discriminate|]. only_char c0.
  destruct (spanDigits s1) as [d1 r1] eqn:H1.
  destruct d1 as [|a1 d1]; [discriminate|].
  destruct r1 as [|c1 s2]; [discriminate|]. only_char c1.
  destruct (spanDigits s2) as [d2 r2] eqn:H2.
  destruct d2 as [|a2 d2]; [discriminate|].
  destruct r2 as [|c2 s3]; [discriminate|]. only_char c2.
  destruct (spanDigits s3) as [d3 r3] eqn:H3.
  destruct d3 as [|a3 d3]; [discriminate|].
  destruct r3 as [|c3 rest]; [discriminate|]. only_char c3.
  intros [= <- <-].
  apply spanDigits_inv in H1 as (-> & Hd1 & _).
  apply spanDigits_inv in H2 as (-> & Hd2 & _).
  apply spanDigits_inv in H3 as (-> & Hd3 & _).
  split.
  - repeat split; done.
  - unfold tokenText. simpl. f_equal.
    rewrite !append_assoc. simpl. do 3 f_equal.
    rewrite !append_assoc. simpl. do 3 f_equal.
    by rewrite !append_assoc.
Qed.

Lemma matchHere_tokenText t r :
  wellFormed t -> matchHere (tokenText t ++ r) = Some (t, r).
Proof.
  destruct t as [m s f]. intros ((Hm0 & Hm) & (Hs0 & Hs) & (Hf0 & Hf)).
  simpl in *. unfold tokenText, matchHere. simpl.
  rewrite !append_assoc.
  rewrite (spanDigits_app m _ Hm); [|reflexivity].
  destruct m as [|? m]; [done|]. simpl. rewrite !append_assoc. simpl.
  rewrite (spanDigits_app s _ Hs); [|reflexivity].
  destruct s as [|? s]; [done|]. simpl. rewrite ?append_assoc. simpl.
  rewrite (spanDigits_app f _ Hf); [|reflexivity].
  destruct f as [|? f]; [done|]. reflexivity.
Qed.

Lemma exec_tokenText t : wellFormed t -> exec (tokenText t) = Some t.
Proof.
  intros Hwf. pose proof (matchHere_tokenText t EmptyString Hwf) as H.
  rewrite append_empty_r in H.
  destruct (tokenText t) eqn:E; [discriminate H|].
  cbn [exec]. by rewrite H.
Qed.

Lemma decodeTimeStamp_tokenText t :
  wellFormed t -> decodeTimeStamp (tokenText t) = Some (timeOf t).
Proof.
  intros Hwf. unfold decodeTimeStamp. by rewrite (exec_tokenText t Hwf).
Qed.

(** C3.  On a token [[m:s.f]] whose three parts are runs of decimal
    digits, [decodeTimeStamp] returns the binary64 value of
    [m * 60 + s.f]: the number nearest to the integer [m], times 60, plus
    the number nearest to the decimal [s.f].  On ["[2:17.88]"] this is
    the number nearest to 137.88. *)
Theorem decodeTimeStamp_value (m s f : string) :
  isDigits m -> isDigits s -> isDigits f ->
  decodeTimeStamp ("[" ++ m ++ ":" ++ s ++ "." ++ f ++ "]")
  = Some (add (mul (ofZ (decimalValue 0 m)) (ofZ 60))
              (ofRatio (decimalValue 0 (s ++ f))
                       (Z.to_pos (10 ^ Z.of_nat (String.length f)))))
  /\ decodeTimeStamp "[2:17.88]" = Some (ofRatio 13788 100).
Proof.
  intros Hm Hs Hf. split; [|by vm_compute].
  exact (decodeTimeStamp_tokenText (Token m s f) (conj Hm (conj Hs Hf))).
Qed.

Lemma decodeTimeStamp_value_witness :
  decodeTimeStamp "[10:05.250]"
  = Some (add (mul (ofZ 10) (ofZ 60)) (ofRatio 5250 1000)).
Proof.
  refine (proj1 (decodeTimeStamp_value "10" "05" "250" _ _ _));
    (split; [discriminate | repeat constructor]).
Defined.

End Pattern.

(** ** The parse loop *)

Section Pattern_matches.
Local Open Scope string_scope.

Lemma matchAllFrom_wellFormed s : forall k, Forall wellFormed (matchAllFrom k s).
Proof.
  induction s as [|c s IH]; intros k; [constructor|].
  cbn [matchAllFrom]. destruct k as [|k]; [|apply IH].
  destruct (matchHere (String c s)) as [[t r]|] eqn:H; [|apply IH].
  constructor; [|apply IH]. by apply matchHere_inv in H as [? _].
Qed.

Lemma matchStart_wellFormed s : Forall wellFormed (matchStart s).
Proof.
  unfold matchStart. destruct (matchHere s) as [[t r]|] eqn:H; [|constructor].
  constructor; [|constructor]. by apply matchHere_inv in H as [? _].
Qed.

Lemma matchEnd_wellFormed s : Forall wellFormed (matchEnd s).
Proof.
  induction s as [|c s IH]; [apply Forall_nil_2|].
  cbn [matchEnd]. destruct (matchHere (String c s)) as [[t [|? ?]]|] eqn:H; try apply IH.
  constructor; [|constructor]. by apply matchHere_inv in H as [? _].
Qed.

(** A line without any time stamp has none at its start or end. *)
Lemma matchAll_nil s : matchAll s = [] -> matchStart s = [] /\ matchEnd s = [].
Proof.
  unfold matchAll, matchStart. induction s as [|c s IH]; [done|].
  cbn [matchAllFrom matchEnd].
  destruct (matchHere (String c s)) as [[t r]|]; [discriminate|].
  intros H. split; [done|]. by apply IH.
Qed.

End Pattern_matches.

Lemma closeEnds_Some t pending els :
  wellFormed t ->
  closeEnds (tokenText t) pending els = Some (closeAll (timeOf t) pending els).
Proof.
  intros Hwf. revert els. induction pending as [|j rest IH]; intros els; [done|].
  cbn [closeEnds]. rewrite (decodeTimeStamp_tokenText t Hwf). simpl. apply IH.
Qed.

(** The loop body never raises. *)
Lemma parseLine_Some raw st : parseLine raw st = Some (parseLineResult raw st).
Proof.
  unfold parseLine, parseLineResult.
  pose proof (matchAllFrom_wellFormed (trim raw) 0) as Hall.
  pose proof (matchStart_wellFormed (trim raw)) as Hb.
  pose proof (matchEnd_wellFormed (trim raw)) as He.
  fold (matchAll (trim raw)) in Hall.
  destruct (matchAll (trim raw)) as [|t0 ts];
    destruct (lineElementsWithoutEndingTime st) as [|p ps];
    destruct (matchStart (trim raw)) as [|b bs];
    destruct (matchEnd (trim raw)) as [|e es];
    repeat match goal with
      | H : Forall wellFormed (_ :: _) |- _ => apply Forall_cons in H as [? _]
      end;
    repeat (rewrite ?closeEnds_Some, ?decodeTimeStamp_tokenText by assumption; simpl);
    reflexivity.
Qed.

Lemma parseLines_Some lines : forall st,
  parseLines lines st = Some (foldl (fun st raw => parseLineResult raw st) st lines).
Proof.
  induction lines as [|raw rest IH]; intros st; [done|].
  cbn [parseLines foldl]. rewrite parseLine_Some. simpl. apply IH.
Qed.

Lemma setEnd_setEnd v el : setEnd v (setEnd v el) = setEnd v el.
Proof. reflexivity. Qed.

Lemma closeAll_cons v p ps els :
  closeAll v (p :: ps) els = closeAll v ps (alter (setEnd v) p els).
Proof. reflexivity. Qed.

Lemma closeAll_length v pending : forall els,
  length (closeAll v pending els) = length els.
Proof.
  induction pending as [|p ps IH]; intros els; [done|].
  by rewrite closeAll_cons, IH, length_alter.
Qed.

Lemma closeAll_lookup v pending : forall els j,
  closeAll v pending els !! j
  = if bool_decide (j ∈ pending) then setEnd v <$> els !! j else els !! j.
Proof.
  induction pending as [|p ps IH]; intros els j.
  - rewrite bool_decide_eq_false_2 by apply not_elem_of_nil. reflexivity.
  - rewrite closeAll_cons, IH.
    destruct (decide (j = p)) as [->|Hne].
    + rewrite list_lookup_alter_eq.
      rewrite (bool_decide_eq_true_2 (p ∈ p :: ps)) by apply list_elem_of_here.
      case_bool_decide; [|done]. destruct (els !! p); done.
    + rewrite list_lookup_alter_ne by done.
      case_bool_decide as H1; case_bool_decide as H2; try done.
      * exfalso. apply H2. by apply list_elem_of_further.
      * exfalso. apply elem_of_cons in H2 as [?|?]; done.
Qed.

Local Ltac open_parseLine :=
  unfold parseLineResult;
  repeat match goal with
    | |- context [match matchAll ?s with _ => _ end] => destruct (matchAll s) as [|? ?]
    | |- context [match lineElementsWithoutEndingTime ?s with _ => _ end] =>
        let E := fresh "Ep" in destruct (lineElementsWithoutEndingTime s) as [|? ?] eqn:E
    | |- context [match matchEnd ?s with _ => _ end] => destruct (matchEnd s) as [|? ?]
    end;
  cbn [elems lastTime lineElementsWithoutEndingTime].

Lemma parseLineResult_length raw st :
  length (elems (parseLineResult raw st)) = S (length (elems st)).
Proof.
  open_parseLine;
    rewrite !length_alter, ?closeAll_length, length_app; simpl; lia.
Qed.

(** A line that is not pending is left alone. *)
Lemma parseLineResult_keep raw st j :
  j < length (elems st) ->
  j ∉ lineElementsWithoutEndingTime st ->
  elems (parseLineResult raw st) !! j = elems st !! j.
Proof.
  intros Hj Hp. open_parseLine;
    rewrite !list_lookup_alter_ne by lia;
    rewrite ?closeAll_lookup, ?bool_decide_eq_false_2 by done;
    by rewrite lookup_app_l.
Qed.

(** A line without time stamps closes nothing. *)
Lemma parseLineResult_keep_nil raw st j :
  matchAll (trim raw) = [] ->
  j < length (elems st) ->
  elems (parseLineResult raw st) !! j = elems st !! j.
Proof.
  intros Hnil Hj. unfold parseLineResult. rewrite Hnil.
  destruct (matchEnd (trim raw)); cbn [elems];
    rewrite !list_lookup_alter_ne by lia; by rewrite lookup_app_l.
Qed.

(** A line with a time stamp closes every pending line to its first one. *)
Lemma parseLineResult_close raw st first rest j el :
  matchAll (trim raw) = first :: rest ->
  j ∈ lineElementsWithoutEndingTime st ->
  j < length (elems st) ->
  elems st !! j = Some el ->
  elems (parseLineResult raw st) !! j = Some (setEnd (timeOf first) el).
Proof.
  intros Hall Hp Hj Hel. unfold parseLineResult. rewrite Hall.
  destruct (lineElementsWithoutEndingTime st) as [|p ps] eqn:Ep.
  { by apply elem_of_nil in Hp. }
  destruct (matchEnd (trim raw)); cbn [elems];
    rewrite !list_lookup_alter_ne by lia;
    rewrite closeAll_lookup, bool_decide_eq_true_2 by done;
    by rewrite lookup_app_l, Hel.
Qed.

Lemma parseLineResult_pending_nil raw st :
  matchAll (trim raw) = [] ->
  lineElementsWithoutEndingTime (parseLineResult raw st)
  = lineElementsWithoutEndingTime st ++ [length (elems st)].
Proof.
  intros Hnil. unfold parseLineResult.
  destruct (matchAll_nil _ Hnil) as [_ ->]. by rewrite Hnil.
Qed.

Lemma parseLineResult_pending_noend raw st :
  matchEnd (trim raw) = [] ->
  length (elems st) ∈ lineElementsWithoutEndingTime (parseLineResult raw st).
Proof.
  intros Hnil. unfold parseLineResult. rewrite Hnil.
  destruct (matchAll (trim raw)), (lineElementsWithoutEndingTime st);
    cbn [lineElementsWithoutEndingTime]; apply elem_of_app; right; apply list_elem_of_here.
Qed.

Lemma parseLineResult_pending_sub raw st p :
  p ∈ lineElementsWithoutEndingTime (parseLineResult raw st) ->
  p ∈ lineElementsWithoutEndingTime st \/ p = length (elems st).
Proof.
  open_parseLine; rewrite ?elem_of_app, ?list_elem_of_singleton, ?elem_of_nil; tauto.
Qed.

(** After a line with a time stamp, no earlier line is pending. *)
Lemma parseLineResult_pending_cleared raw st first rest p :
  matchAll (trim raw) = first :: rest ->
  p ∈ lineElementsWithoutEndingTime (parseLineResult raw st) ->
  p = length (elems st).
Proof.
  intros Hall. unfold parseLineResult. rewrite Hall.
  destruct (lineElementsWithoutEndingTime st), (matchEnd (trim raw));
    cbn [lineElementsWithoutEndingTime];
    rewrite ?elem_of_app, ?list_elem_of_singleton, ?elem_of_nil; tauto.
Qed.

Lemma parseLinesResult_app a b st :
  parseLinesResult (a ++ b) st = parseLinesResult b (parseLinesResult a st).
Proof. apply foldl_app. Qed.

Lemma parseLinesResult_length lines : forall st,
  length (elems (parseLinesResult lines st)) = length (elems st) + length lines.
Proof.
  induction lines as [|raw rest IH]; intros st; simpl; [lia|].
  fold (parseLinesResult rest (parseLineResult raw st)).
  rewrite IH, parseLineResult_length. lia.
Qed.

(** Lines before position [b] are out of reach of the loop once every
    pending position is [b] or later. *)
Lemma parseLinesResult_keep b lines : forall st,
  b <= length (elems st) ->
  (forall p, p ∈ lineElementsWithoutEndingTime st -> b <= p) ->
  forall j, j < b -> elems (parseLinesResult lines st) !! j = elems st !! j.
Proof.
  induction lines as [|raw rest IH]; intros st Hb Hp j Hj; [done|].
  simpl. fold (parseLinesResult rest (parseLineResult raw st)).
  rewrite IH; [| rewrite parseLineResult_length; lia | | done].
  - apply parseLineResult_keep; [lia|]. intros Hin. apply Hp in Hin. lia.
  - intros p Hin. apply parseLineResult_pending_sub in Hin as [Hin| ->]; [by apply Hp|done].
Qed.

(** Lines without time stamps pile up as pending and close nothing. *)
Lemma parseLinesResult_no_stamps mid : forall st,
  Forall (fun l => matchAll (trim l) = []) mid ->
  lineElementsWithoutEndingTime (parseLinesResult mid st)
  = lineElementsWithoutEndingTime st ++ seq (length (elems st)) (length mid)
  /\ forall j, j < length (elems st) ->
       elems (parseLinesResult mid st) !! j = elems st !! j.
Proof.
  induction mid as [|raw rest IH]; intros st Hmid.
  - simpl. by rewrite app_nil_r.
  - apply Forall_cons in Hmid as [Hraw Hrest]. simpl.
    fold (parseLinesResult rest (parseLineResult raw st)).
    destruct (IH (parseLineResult raw st) Hrest) as [-> Hkeep]. split.
    + rewrite parseLineResult_pending_nil, parseLineResult_length by done.
      by rewrite <- app_assoc.
    + intros j Hj. rewrite Hkeep by (rewrite parseLineResult_length; lia).
      by apply parseLineResult_keep_nil.
Qed.

(** C2.  Lines [L0 .. L(k-1)] without a trailing time stamp, [L1 ..
    L(k-1)] having none at all, followed by the first line [Lk] that has
    one: whatever the loop has read before [L0] and reads after [Lk], the
    end of each of [L0 .. L(k-1)] is the value [decodeTimeStamp] gives for
    the first time stamp of [Lk], from the iteration on [Lk] onwards, and
    after that iteration no line before [Lk] is pending. *)
Theorem parseLines_closes_pending st pre L0 mid Lk post first rest :
  matchEnd (trim L0) = [] ->
  Forall (fun l => matchAll (trim l) = []) mid ->
  matchAll (trim Lk) = first :: rest ->
  let i0 := length (elems st) + length pre in
  decodeTimeStamp (tokenText first) = Some (timeOf first)
  /\ exists stk stf,
       parseLines (pre ++ L0 :: mid ++ [Lk]) st = Some stk
       /\ parseLines (pre ++ L0 :: mid ++ Lk :: post) st = Some stf
       /\ (forall j, j <= length mid ->
             exists el, elems stk !! (i0 + j) = Some el /\ dataEnd el = timeOf first)
       /\ (forall p, p ∈ lineElementsWithoutEndingTime stk -> p = i0 + S (length mid))
       /\ (forall j, j <= length mid ->
             exists el, elems stf !! (i0 + j) = Some el /\ dataEnd el = timeOf first).
Proof.
  intros HL0 Hmid HLk i0. split.
  { apply decodeTimeStamp_tokenText.
    pose proof (matchAllFrom_wellFormed (trim Lk) 0) as Hwf.
    fold (matchAll (trim Lk)) in Hwf. rewrite HLk in Hwf.
    by apply Forall_cons in Hwf as [? _]. }
  rewrite !parseLines_Some. do 2 eexists. split; [reflexivity|]. split; [reflexivity|].
  fold (parseLinesResult (pre ++ L0 :: mid ++ [Lk]) st).
  fold (parseLinesResult (pre ++ L0 :: mid ++ Lk :: post) st).
  replace (pre ++ L0 :: mid ++ Lk :: post)
    with ((pre ++ L0 :: mid ++ [Lk]) ++ post)
    by (rewrite <- app_assoc; simpl; by rewrite <- app_assoc).
  rewrite (parseLinesResult_app _ post).
  replace (pre ++ L0 :: mid ++ [Lk]) with (pre ++ [L0] ++ mid ++ [Lk]) by done.
  rewrite !parseLinesResult_app.
  set (s1 := parseLinesResult pre st).
  assert (Hlen1 : length (elems s1) = i0) by apply parseLinesResult_length.
  change (parseLinesResult [L0] s1) with (parseLineResult L0 s1).
  set (s2 := parseLineResult L0 s1).
  assert (Hlen2 : length (elems s2) = S i0).
  { unfold s2. by rewrite parseLineResult_length, Hlen1. }
  assert (Hin2 : i0 ∈ lineElementsWithoutEndingTime s2).
  { rewrite <- Hlen1. by apply parseLineResult_pending_noend. }
  destruct (parseLinesResult_no_stamps mid s2 Hmid) as [Hpend3 Hkeep3].
  set (s3 := parseLinesResult mid s2) in *.
  assert (Hlen3 : length (elems s3) = i0 + S (length mid)).
  { unfold s3. rewrite parseLinesResult_length, Hlen2. lia. }
  assert (Hin3 : forall j, j <= length mid -> i0 + j ∈ lineElementsWithoutEndingTime s3).
  { intros j Hj. rewrite Hpend3, Hlen2. apply elem_of_app.
    destruct j as [|j]; [left; by rewrite Nat.add_0_r|].
    right. apply elem_of_seq. lia. }
  change (parseLinesResult [Lk] s3) with (parseLineResult Lk s3).
  set (sk := parseLineResult Lk s3).
  assert (Hk : forall j, j <= length mid ->
            exists el, elems sk !! (i0 + j) = Some el /\ dataEnd el = timeOf first).
  { intros j Hj.
    destruct (lookup_lt_is_Some_2 (elems s3) (i0 + j) ltac:(lia)) as [el Hel].
    exists (setEnd (timeOf first) el). split; [|reflexivity].
    eapply parseLineResult_close; eauto. lia. }
  assert (Hpk : forall p, p ∈ lineElementsWithoutEndingTime sk -> p = i0 + S (length mid)).
  { intros p Hp. rewrite <- Hlen3. eapply parseLineResult_pending_cleared; eauto. }
  split; [exact Hk|]. split; [exact Hpk|].
  intros j Hj.
  rewrite (parseLinesResult_keep (i0 + S (length mid)) post sk).
  - by apply Hk.
  - unfold sk. rewrite parseLineResult_length, Hlen3. lia.
  - intros p Hp. apply Hpk in Hp. lia.
  - lia.
Qed.

Lemma parseLines_closes_pending_witness :
  exists stf,
    parseLines ["Hello"; EmptyString; "[0:05.00]World"; "[0:08.00]End"]%string
      {| elems := []; lastTime := zero; lineElementsWithoutEndingTime := [] |} = Some stf
    /\ (exists el, elems stf !! 0 = Some el /\ dataEnd el = ofZ 5)
    /\ (exists el, elems stf !! 1 = Some el /\ dataEnd el = ofZ 5).
Proof.
  destruct (parseLines_closes_pending
              {| elems := []; lastTime := zero; lineElementsWithoutEndingTime := [] |}
              [] "Hello"%string [EmptyString] "[0:05.00]World"%string ["[0:08.00]End"%string]
              (Token "0" "05" "00") [] eq_refl
              ltac:(repeat constructor) eq_refl)
    as (_ & stk & stf & _ & Hf & _ & _ & Hends).
  exists stf. split; [exact Hf|]. split.
  - exact (Hends 0 ltac:(simpl; lia)).
  - exact (Hends 1 ltac:(simpl; lia)).
Defined.

(** ** parseLyrics as a whole *)

Lemma splitLines_length_pos s : 1 <= length (splitLines s).
Proof.
  induction s as [|c s IH]; simpl; [lia|].
  destruct (Ascii.eqb c LF); simpl; [lia|].
  destruct (splitLines s); simpl in *; lia.
Qed.

(** One piece exactly when the string has no line feed. *)
Lemma splitLines_single s :
  LF ∉ list_ascii_of_string s -> length (splitLines s) = 1.
Proof.
  induction s as [|c s IH]; simpl; [done|].
  intros Hnot. apply not_elem_of_cons in Hnot as [Hc Hs].
  destruct (Ascii.eqb_spec c LF) as [->|_]; [done|].
  specialize (IH Hs). destruct (splitLines s) as [|p [|? ?]]; simpl in *; done.
Qed.

Lemma parseLyrics_no_element textOfHTML self :
  element self = None -> parseLyrics textOfHTML self = Some self.
Proof. unfold parseLyrics. by intros ->. Qed.

(** The result of [parseLyrics] when the guard does not fire. *)
Lemma parseLyrics_parses textOfHTML self c :
  element self = Some c ->
  ((length (splitLines (trim (textContent textOfHTML self c))) <=? 1)
   && innerHTMLHasDiv self c) = false ->
  parseLyrics textOfHTML self
  = Some (withLineElements
            (elems (parseLinesResult (splitLines (trim (textContent textOfHTML self c)))
                      {| elems := lineElements self; lastTime := zero;
                         lineElementsWithoutEndingTime := [] |}))
            (withElement (Some (Lines (length (lineElements self)))) self)).
Proof.
  intros Hel Hguard. unfold parseLyrics. rewrite Hel. cbv zeta. rewrite Hguard.
  cbn [lineElements withElement]. rewrite parseLines_Some. reflexivity.
Qed.

(** C8.  When the trimmed text of the container has no line feed and the
    container holds [<div] markup, [parseLyrics] returns the object
    unchanged.  The container always holds such markup after a parse, so a
    second [parseLyrics] over the output of a first one, whose text has no
    line feed, changes nothing: neither the count nor the records of the
    lines. *)
Theorem parseLyrics_reparse_guard textOfHTML self :
  (forall c,
      element self = Some c ->
      LF ∉ list_ascii_of_string (trim (textContent textOfHTML self c)) ->
      innerHTMLHasDiv self c = true ->
      parseLyrics textOfHTML self = Some self)
  /\ (forall self',
        parseLyrics textOfHTML self = Some self' ->
        (forall c', element self' = Some c' ->
                    LF ∉ list_ascii_of_string (trim (textContent textOfHTML self' c'))) ->
        parseLyrics textOfHTML self' = Some self').
Proof.
  assert (Hguard : forall s c,
      element s = Some c ->
      LF ∉ list_ascii_of_string (trim (textContent textOfHTML s c)) ->
      innerHTMLHasDiv s c = true ->
      parseLyrics textOfHTML s = Some s).
  { intros s c Hel Hlf Hdiv. unfold parseLyrics. rewrite Hel. cbv zeta.
    by rewrite (splitLines_single _ Hlf), Hdiv. }
  split; [apply Hguard|].
  intros self' Hparse Hlf.
  destruct (element self) as [c|] eqn:Hel.
  2:{ rewrite parseLyrics_no_element in Hparse by done. inversion Hparse; subst.
      by apply parseLyrics_no_element. }
  destruct ((length (splitLines (trim (textContent textOfHTML self c))) <=? 1)
            && innerHTMLHasDiv self c) eqn:Hg.
  { unfold parseLyrics in Hparse. rewrite Hel in Hparse. cbv zeta in Hparse.
    rewrite Hg in Hparse. inversion Hparse; subst.
    unfold parseLyrics. rewrite Hel. cbv zeta. by rewrite Hg. }
  rewrite (parseLyrics_parses _ _ _ Hel Hg) in Hparse. inversion Hparse as [Hself']; clear Hparse.
  rewrite Hself'.
  assert (Hel' : element self' = Some (Lines (length (lineElements self)))).
  { subst self'. by destruct self. }
  apply (Hguard self' _ Hel'); [by apply Hlf|].
  unfold innerHTMLHasDiv. apply bool_decide_eq_true_2.
  rewrite <- Hself'.
  replace (lineElements (withLineElements _ _)) with
    (elems (parseLinesResult (splitLines (trim (textContent textOfHTML self c)))
              {| elems := lineElements self; lastTime := zero;
                 lineElementsWithoutEndingTime := [] |})) by (by destruct self).
  rewrite parseLinesResult_length. cbn [elems].
  pose proof (splitLines_length_pos (trim (textContent textOfHTML self c))). lia.
Qed.

Lemma parseLyrics_reparse_guard_witness :
  exists self',
    construct (fun s => s) "[0:01.00]Hello
[0:03.50]World"%string "[0:01.00]Hello
[0:03.50]World"%string true = Some self'
    /\ length (lineElements self') = 2
    /\ parseLyrics (fun s => s) self' = Some self'.
Proof.
  eexists. split; [vm_compute; reflexivity|]. split; [reflexivity|].
  match goal with |- parseLyrics _ ?obj = _ =>
    apply (proj1 (parseLyrics_reparse_guard (fun s => s) obj) (Lines 0) eq_refl)
  end.
  - vm_compute. intros H. repeat (apply elem_of_cons in H as [H|H]; [discriminate H|]).
    by apply elem_of_nil in H.
  - reflexivity.
Defined.

(** C9, as the code has it.  On a container whose text is empty,
    [parseLyrics] appends one line, from time 0, without end, showing the
    [&nbsp;] placeholder, and makes it the content of the container;
    it returns without a change only when the markup of the container
    contains [<div]. *)
Theorem parseLyrics_empty_text textOfHTML self html :
  element self = Some (Markup EmptyString html) ->
  parseLyrics textOfHTML self
  = Some (if includes "<div" html then self
          else withLineElements (lineElements self ++ [blankLine])
                 (withElement (Some (Lines (length (lineElements self)))) self)).
Proof.
  intros Hel. destruct (includes "<div" html) eqn:Hdiv.
  - unfold parseLyrics. rewrite Hel. cbn. by rewrite Hdiv.
  - rewrite (parseLyrics_parses _ _ _ Hel) by (cbn; by rewrite Hdiv).
    do 2 f_equal. cbn.
    rewrite !alter_app_r_alt by lia. rewrite Nat.sub_diag. reflexivity.
Qed.

Lemma parseLyrics_empty_text_witness :
  exists self,
    construct (fun s => s) EmptyString EmptyString true = Some self
    /\ lineElements self = [blankLine].
Proof.
  eexists. split.
  - unfold construct.
    rewrite (parseLyrics_empty_text (fun s => s) (fields EmptyString EmptyString) EmptyString eq_refl).
    reflexivity.
  - reflexivity.
Defined.

(** C9 as stated fails: parsing the empty text appends a line. *)
Lemma parseLyrics_empty_text_counterexample :
  let self := fields EmptyString EmptyString in
  exists self',
    parseLyrics (fun s => s) self = Some self'
    /\ length (lineElements self') = 1
    /\ ~ (lineElements self' = [] /\ self' = self).
Proof.
  intros self. eexists. split; [vm_compute; reflexivity|].
  split; [reflexivity|]. intros [H _]. discriminate H.
Qed.

(** ** Playback sweeps *)

Lemma le_trans a b c : le a b = true -> le b c = true -> le a c = true.
Proof.
  unfold le, SFleb, SFcompare.
  destruct a as [sa|sa| |sa ma ea], b as [sb|sb| |sb mb eb], c as [sc|sc| |sc mc ec];
    try destruct sa; try destruct sb; try destruct sc;
    try (intros; reflexivity); try discriminate;
    change (Pos.compare_cont Eq ?x ?y) with (Pos.compare x y);
    repeat match goal with
      | |- context [Z.compare ?x ?y] => destruct (Z.compare_spec x y)
      | |- context [Pos.compare ?x ?y] => destruct (Pos.compare_spec x y)
      end; simpl; try (intros; reflexivity); try discriminate; try lia.
Qed.

Lemma le_refl a : isNaN a = false -> le a a = true.
Proof.
  unfold le, SFleb, SFcompare.
  destruct a as [s|s| |s m e]; try destruct s; try done;
    intros _; rewrite Z.compare_refl;
    change (Pos.compare_cont Eq ?x ?y) with (Pos.compare x y);
    by rewrite Pos.compare_refl.
Qed.

Lemma nondecreasing_tail a times : nondecreasing (a :: times) -> nondecreasing times.
Proof. intros H i x y Hx Hy. exact (H (S i) x y Hx Hy). Qed.

Lemma nondecreasing_le times : forall i j a b,
  nondecreasing times -> i < j ->
  times !! i = Some a -> times !! j = Some b -> le a b = true.
Proof.
  intros i j a b Hsorted Hij Ha. revert b.
  induction Hij as [|j Hij IH]; intros b Hb.
  - by apply (Hsorted i).
  - destruct (lookup_lt_is_Some_2 times j) as [c Hc].
    { apply lookup_lt_Some in Hb. lia. }
    apply (le_trans a c b); [by apply IH | by apply (Hsorted j)].
Qed.

Lemma synchronizer_windows time layout self :
  windows (synchronizer time layout self) = windows self.
Proof.
  unfold windows. rewrite synchronizer_lineElements.
  apply list_eq. intros i. rewrite !list_lookup_fmap, list_lookup_imap.
  by destruct (lineElements self !! i).
Qed.

Lemma synchronizer_activeAt time layout self i :
  activeAt i (synchronizer time layout self)
  = match lineElements self !! i with
    | Some el => wantActive time (currentLine self) i el
    | None => false
    end.
Proof.
  unfold activeAt. rewrite synchronizer_lineElements, list_lookup_imap.
  by destruct (lineElements self !! i).
Qed.

Lemma wantActive_windows time current i el el' :
  dataStart el = dataStart el' -> dataEnd el = dataEnd el' ->
  wantActive time current i el = wantActive time current i el'.
Proof. unfold wantActive. by intros -> ->. Qed.

(** Each object of a sweep comes from [synchronizer] at the playback
    position of the same rank, on an object with the windows and the
    override of the first one. *)
Lemma sweep_lookup layout times : forall self i t self',
  times !! i = Some t ->
  sweep times layout self !! i = Some self' ->
  exists prev,
    self' = synchronizer t layout prev
    /\ windows prev = windows self /\ currentLine prev = currentLine self.
Proof.
  induction times as [|t0 rest IH]; intros self i t self' Ht Hs; [done|].
  destruct i as [|i]; simpl in *.
  - inversion Ht; inversion Hs; subst. by exists self.
  - destruct (IH _ _ _ _ Ht Hs) as (prev & -> & Hw & Hc).
    exists prev. rewrite Hw, Hc, synchronizer_windows, synchronizer_currentLine. done.
Qed.

Lemma sweep_length layout times : forall self,
  length (sweep times layout self) = length times.
Proof. induction times as [|t rest IH]; intros self; simpl; [done|]. by rewrite IH. Qed.

Lemma windows_lookup self prev i el :
  windows prev = windows self ->
  lineElements self !! i = Some el ->
  exists el', lineElements prev !! i = Some el'
              /\ dataStart el' = dataStart el /\ dataEnd el' = dataEnd el.
Proof.
  unfold windows. intros Hw Hel.
  assert (H : map (fun el => (dataStart el, dataEnd el)) (lineElements prev) !! i
              = Some (dataStart el, dataEnd el)).
  { by rewrite Hw, list_lookup_fmap, Hel. }
  rewrite list_lookup_fmap in H. destruct (lineElements prev !! i) as [el'|]; [|done].
  exists el'. simpl in H. by inversion H.
Qed.

Lemma sweep_activeAt layout times self i t s j el :
  times !! i = Some t ->
  sweep times layout self !! i = Some s ->
  lineElements self !! j = Some el ->
  activeAt j s = wantActive t (currentLine self) j el.
Proof.
  intros Ht Hs Hel.
  destruct (sweep_lookup _ _ _ _ _ _ Ht Hs) as (prev & -> & Hw & Hc).
  destruct (windows_lookup _ _ _ _ Hw Hel) as (el' & Hel' & Hstart & Hend).
  rewrite synchronizer_activeAt, Hel', Hc. by apply wantActive_windows.
Qed.

(** C4, as the code has it.  The object built on the lyrics of scenario 1
    has line 0 from 1 to 3.5 and line 1 from 3.5 without end, both
    inactive.  Along any playback positions that never go back, with no
    override, line 0 is active after an update exactly when the position
    read lies in [1, 3.5], and between two updates that leave it active it
    stays active: it is switched on at most once and off at most once.
    Line 1, whose end is Infinity, is inactive after every update.  On the
    positions 0.5, 1, 1.5, ..., 4 line 0 is inactive, then active from 1 to
    3.5, then inactive, and line 1 is inactive throughout, also at 3.5. *)
Theorem sweep_scenario1 textOfHTML html mediaElement layout :
  exists self0,
    construct textOfHTML scenario1 html mediaElement = Some self0
    /\ windows self0 = [(ofZ 1, ofRatio 7 2); (ofRatio 7 2, Infinity)]
    /\ activeAt 0 self0 = false /\ activeAt 1 self0 = false
    /\ (forall times, nondecreasing times ->
          (forall i t s,
              times !! i = Some t -> sweep times layout self0 !! i = Some s ->
              (activeAt 0 s = true <-> le (ofZ 1) t = true /\ le t (ofRatio 7 2) = true)
              /\ activeAt 1 s = false)
          /\ (forall i j k si sj sk,
                i <= j <= k ->
                sweep times layout self0 !! i = Some si ->
                sweep times layout self0 !! j = Some sj ->
                sweep times layout self0 !! k = Some sk ->
                activeAt 0 si = true -> activeAt 0 sk = true -> activeAt 0 sj = true))
    /\ map (fun s => (activeAt 0 s, activeAt 1 s))
           (sweep [ofRatio 1 2; ofZ 1; ofRatio 3 2; ofZ 2; ofRatio 5 2; ofZ 3;
                   ofRatio 7 2; ofZ 4] layout self0)
       = [(false, false); (true, false); (true, false); (true, false);
          (true, false); (true, false); (true, false); (false, false)].
Proof.
  eexists. split.
  { unfold construct.
    rewrite (parseLyrics_parses textOfHTML (fields scenario1 html) (Markup scenario1 html)
               eq_refl) by reflexivity.
    simpl mbind. reflexivity. }
  match goal with |- windows ?s = _ /\ _ => set (self0 := s) end.
  assert (Hlines : lineElements self0
                   = [ {| dataStart := ofZ 1; dataEnd := ofRatio 7 2;
                          innerHTML := "Hello"; active := false |};
                       {| dataStart := ofRatio 7 2; dataEnd := Infinity;
                          innerHTML := "World"; active := false |} ]).
  { subst self0. destruct mediaElement; vm_compute; reflexivity. }
  assert (Hcur : currentLine self0 = (-1)%Z).
  { subst self0. destruct mediaElement; reflexivity. }
  clearbody self0.
  assert (Hflags : forall times i t s,
             times !! i = Some t -> sweep times layout self0 !! i = Some s ->
             (activeAt 0 s = true <-> le (ofZ 1) t = true /\ le t (ofRatio 7 2) = true)
             /\ activeAt 1 s = false).
  { intros times i t s Ht Hs. split.
    - rewrite (sweep_activeAt _ _ _ _ _ _ 0 _ Ht Hs (f_equal (.!! 0) Hlines)).
      rewrite wantActive_spec, Hcur. unfold inWindow, resolved. cbn [dataStart dataEnd].
      split; [intros [[? _]|[? _]]; [done|lia] | intros ?; left; split; [done|discriminate]].
    - rewrite (sweep_activeAt _ _ _ _ _ _ 1 _ Ht Hs (f_equal (.!! 1) Hlines)).
      apply not_true_iff_false. rewrite wantActive_spec, Hcur. unfold resolved.
      cbn [dataEnd]. intros [[_ ?]|[? _]]; [done|lia]. }
  split; [unfold windows; by rewrite Hlines|].
  split; [unfold activeAt; by rewrite Hlines|].
  split; [unfold activeAt; by rewrite Hlines|].
  split.
  - intros times Hsorted. split; [apply Hflags|].
    intros i j k si sj sk [Hij Hjk] Hi Hj Hk Hai Hak.
    destruct (decide (i = j)) as [->|Hne1]; [congruence|].
    destruct (decide (j = k)) as [->|Hne2]; [congruence|].
    assert (Hlen := sweep_length layout times self0).
    destruct (lookup_lt_is_Some_2 times i) as [ti Hti];
      [rewrite <- Hlen; by eapply lookup_lt_Some|].
    destruct (lookup_lt_is_Some_2 times j) as [tj Htj];
      [rewrite <- Hlen; by eapply lookup_lt_Some|].
    destruct (lookup_lt_is_Some_2 times k) as [tk Htk];
      [rewrite <- Hlen; by eapply lookup_lt_Some|].
    apply (Hflags _ _ _ _ Hti Hi) in Hai as [Hlo _].
    apply (Hflags _ _ _ _ Htk Hk) in Hak as [_ Hhi].
    apply (Hflags _ _ _ _ Htj Hj). split.
    + apply (le_trans _ ti); [done|]. apply (nondecreasing_le times i j); [done|lia|done..].
    + apply (le_trans _ tk); [|done]. apply (nondecreasing_le times j k); [done|lia|done..].
  - cbn [sweep map]. rewrite !synchronizer_activeAt.
    rewrite !synchronizer_lineElements, !list_lookup_imap.
    rewrite !synchronizer_currentLine, Hcur, Hlines. reflexivity.
Qed.

Lemma sweep_scenario1_witness :
  exists self0 s,
    construct (fun s => s) scenario1 scenario1 true = Some self0
    /\ sweep [ofRatio 1 2; ofZ 2; ofZ 4] flatLayout self0 !! 1 = Some s
    /\ activeAt 0 s = true /\ activeAt 1 s = false.
Proof.
  destruct (sweep_scenario1 (fun s => s) scenario1 true flatLayout)
    as (self0 & Hc & _ & _ & _ & Hsweep & _).
  assert (Hsorted : nondecreasing [ofRatio 1 2; ofZ 2; ofZ 4]).
  { intros i a b Ha Hb. destruct i as [|[|[|i]]]; simpl in *;
      inversion Ha; inversion Hb; subst; reflexivity. }
  destruct (Hsweep _ Hsorted) as [Hflags _].
  exists self0. eexists. split; [exact Hc|]. split; [reflexivity|].
  destruct (Hflags 1 (ofZ 2) _ eq_refl eq_refl) as [H0 H1].
  split; [apply H0; split; reflexivity | exact H1].
Defined.

(** C4 as stated fails: line 1 is not active after the update at 3.5,
    nor after any other update of the sweep. *)
Lemma sweep_scenario1_counterexample :
  exists self0,
    construct (fun s => s) scenario1 scenario1 true = Some self0
    /\ activeAt 1 (synchronizer (ofRatio 7 2) flatLayout self0) = false
    /\ map (activeAt 1)
           (sweep [ofRatio 1 2; ofZ 1; ofRatio 3 2; ofZ 2; ofRatio 5 2; ofZ 3;
                   ofRatio 7 2; ofZ 4] flatLayout self0)
       = [false; false; false; false; false; false; false; false].
Proof. eexists. split; [vm_compute; reflexivity|]. split; vm_compute; reflexivity. Qed.

(** The synchronizer of the unbundled source does activate line 1 at 3.5. *)
Lemma unbundled_synchronizer_scenario1 :
  exists self0,
    construct (fun s => s) scenario1 scenario1 true = Some self0
    /\ activeAt 1 (Unbundled.synchronizer (ofRatio 7 2) flatLayout self0) = true
    /\ activeAt 0 (Unbundled.synchronizer (ofRatio 7 2) flatLayout self0) = true.
Proof. eexists. split; [vm_compute; reflexivity|]. split; vm_compute; reflexivity. Qed.

(** ** Decoded time stamps are not negative *)

Section Rounding.
Local Open Scope Z_scope.

Lemma shr_1_nonneg mrs : 0 <= shr_m mrs -> 0 <= shr_m (shr_1 mrs).
Proof. destruct mrs as [[|[p|p|]|[p|p|]] r s]; simpl; lia. Qed.

Lemma iter_pos_shr_1_nonneg p : forall mrs,
  0 <= shr_m mrs -> 0 <= shr_m (SpecFloat.iter_pos shr_1 p mrs).
Proof.
  induction p as [p IH|p IH|]; intros mrs H; cbn [SpecFloat.iter_pos].
  - apply IH, IH. by apply shr_1_nonneg.
  - by apply IH, IH.
  - by apply shr_1_nonneg.
Qed.

Lemma shr_nonneg mrs e n : 0 <= shr_m mrs -> 0 <= shr_m (shr mrs e n).1.
Proof.
  intros H. unfold shr. destruct n as [|p|p]; cbn [fst]; try exact H.
  by apply iter_pos_shr_1_nonneg.
Qed.

Lemma shr_fexp_nonneg m e l :
  0 <= m -> 0 <= shr_m (shr_fexp prec emax m e l).1.
Proof.
  intros H. unfold shr_fexp. apply shr_nonneg. by destruct l as [|[]].
Qed.

Lemma round_nearest_even_nonneg mx lx : 0 <= mx -> 0 <= round_nearest_even mx lx.
Proof.
  intros H. unfold round_nearest_even.
  destruct lx as [|[]]; try destruct (Z.even mx); lia.
Qed.

Lemma binary_round_aux_nonneg mx ex lx :
  0 <= mx -> nonneg (binary_round_aux prec emax false mx ex lx).
Proof.
  intros H. unfold binary_round_aux.
  pose proof (shr_fexp_nonneg mx ex lx H) as H1.
  destruct (shr_fexp prec emax mx ex lx) as [mrs' e']. cbn [fst] in H1.
  pose proof (shr_fexp_nonneg _ e' loc_Exact
                (round_nearest_even_nonneg _ (loc_of_shr_record mrs') H1)) as H2.
  destruct (shr_fexp prec emax _ e' loc_Exact) as [mrs'' e'']. cbn [fst] in H2.
  destruct (shr_m mrs'') as [|q|q]; [exact I| |lia].
  destruct (e'' <=? emax - prec); exact I.
Qed.

Lemma ofZ_nonneg n : 0 <= n -> nonneg (ofZ n).
Proof.
  intros H. destruct n as [|p|p]; [exact I| |lia].
  unfold ofZ, binary_normalize, binary_round. destruct (shl_align _ _ _) as [mz ez].
  apply binary_round_aux_nonneg. lia.
Qed.

Lemma add_nonneg x y : nonneg x -> nonneg y -> nonneg (add x y).
Proof.
  destruct x as [[]|[]| |[] mx ex], y as [[]|[]| |[] my ey]; try done.
  intros _ _. unfold add, SFadd, binary_normalize, cond_Zopp.
  destruct (shl_align mx ex _) as [ax ?], (shl_align my ey _) as [ay ?]. cbn [fst].
  change (Z.pos ax + Z.pos ay) with (Z.pos (ax + ay)).
  unfold binary_round. destruct (shl_align _ _ _) as [mz ez].
  apply binary_round_aux_nonneg. lia.
Qed.

Lemma mul_nonneg_finite x m e : nonneg x -> nonneg (mul x (S754_finite false m e)).
Proof.
  destruct x as [[]|[]| |[] mx ex]; try done.
  intros _. unfold mul, SFmul, xorb. apply binary_round_aux_nonneg. lia.
Qed.

Lemma ofRatio_nonneg n d : nonneg (ofRatio n d).
Proof.
  destruct n as [|p|p]; try exact I.
  unfold ofRatio, SFdiv, SFdiv_core_binary, xorb.
  set (m' := match (_ - _ - _) with Z0 => _ | Zpos _ => _ | Zneg _ => _ end).
  assert (Hm' : 0 <= m').
  { subst m'. destruct (_ - _ - _); try lia. apply Z.shiftl_nonneg. lia. }
  pose proof (Z.div_pos m' (Zpos d) Hm' ltac:(lia)) as Hq.
  unfold Z.div in Hq. destruct (Z.div_eucl m' (Z.pos d)) as [q r].
  by apply binary_round_aux_nonneg.
Qed.

Lemma digitValue_nonneg c : isDigit c = true -> 0 <= digitValue c.
Proof.
  destruct c as [[] [] [] [] [] [] [] []]; intros H;
    try (vm_compute in H; discriminate H); by vm_compute.
Qed.

Lemma decimalValue_nonneg s : forall acc,
  0 <= acc ->
  Forall (fun c => isDigit c = true) (list_ascii_of_string s) ->
  0 <= decimalValue acc s.
Proof.
  induction s as [|c s IH]; intros acc Hacc Hs; [done|].
  apply allDigits_cons in Hs as [Hc Hs]. cbn [decimalValue].
  apply IH; [|done]. pose proof (digitValue_nonneg c Hc). lia.
Qed.

End Rounding.

Lemma timeOf_nonneg t : wellFormed t -> nonneg (timeOf t).
Proof.
  intros ((_ & Hm) & _). unfold timeOf. apply add_nonneg; [|apply ofRatio_nonneg].
  let v := eval vm_compute in (ofZ 60) in change (ofZ 60) with v.
  apply mul_nonneg_finite, ofZ_nonneg. by apply decimalValue_nonneg.
Qed.

Lemma nonneg_le_zero x : nonneg x -> le zero x = true.
Proof. by destruct x as [[]|[]| |[] m e]. Qed.

Lemma le_notNaN_l a b : le a b = true -> isNaN a = false.
Proof. by destruct a. Qed.

Lemma le_notNaN_r a b : le a b = true -> isNaN b = false.
Proof. destruct b; try done. by destruct a. Qed.

Lemma le_Infinity a : isNaN a = false -> le a Infinity = true.
Proof. by destruct a as [[]|[]| |[] m e]. Qed.

(** ** Leading and trailing time stamps among all the time stamps of a line *)

Section Pattern_order.
Local Open Scope string_scope.

Lemma matchHere_bracket c s r : matchHere (String c s) = Some r -> c = "["%char.
Proof.
  unfold matchHere. destruct c as [[] [] [] [] [] [] [] []]; try discriminate. done.
Qed.

Lemma isDigit_not_bracket c : isDigit c = true -> c <> "["%char.
Proof. intros H ->. discriminate H. Qed.

Lemma plain_app a b : plain a -> plain b -> plain (a ++ b).
Proof. induction a as [|c a IH]; simpl; [done|]. intros [? ?] ?. split; auto. Qed.

Lemma plain_digits d :
  Forall (fun c => isDigit c = true) (list_ascii_of_string d) -> plain d.
Proof.
  induction d as [|c d IH]; intros Hd; [done|].
  apply allDigits_cons in Hd as [Hc Hd]. simpl. split; [|by apply IH].
  by apply isDigit_not_bracket.
Qed.

Lemma noBracket_plain u r : plain u -> noBracket (String.length u) (u ++ r).
Proof. induction u as [|c u IH]; simpl; [done|]. intros [? ?]. split; auto. Qed.

(** After its opening bracket a time stamp has no other. *)
Lemma tokenText_tail t r :
  wellFormed t ->
  exists u,
    tokenText t ++ r = String "[" (u ++ r)
    /\ String.length (tokenText t) - 1 = String.length u
    /\ noBracket (String.length u) (u ++ r).
Proof.
  destruct t as [m s f]. intros ((_ & Hm) & (_ & Hs) & (_ & Hf)). simpl in *.
  exists (m ++ ":" ++ s ++ "." ++ f ++ "]"). unfold tokenText. simpl.
  split; [|split].
  - by rewrite !append_assoc.
  - lia.
  - apply noBracket_plain.
    apply plain_app; [by apply plain_digits|]. split; [discriminate|].
    apply plain_app; [by apply plain_digits|]. split; [discriminate|].
    apply plain_app; [by apply plain_digits|]. split; [discriminate|exact I].
Qed.

Lemma matchAllFrom_short s : forall k,
  String.length s <= k -> matchAllFrom k s = [].
Proof.
  induction s as [|c s IH]; intros k Hk; [done|].
  simpl in Hk. destruct k as [|k]; [lia|]. cbn [matchAllFrom]. apply IH. lia.
Qed.

Lemma matchStart_matchAll s b bs :
  matchStart s = b :: bs -> exists rest, matchAll s = b :: rest.
Proof.
  unfold matchStart, matchAll.
  destruct (matchHere s) as [[t r]|] eqn:H; [|discriminate].
  intros [= <- _]. destruct s as [|c s]; [discriminate H|].
  cbn [matchAllFrom]. rewrite H. eauto.
Qed.

Lemma matchEnd_matchAllFrom s : forall k e es,
  noBracket k s ->
  matchEnd s = e :: es -> exists front, matchAllFrom k s = (front ++ [e])%list.
Proof.
  induction s as [|c s IH]; intros k e es Hk He; [discriminate He|].
  cbn [matchEnd matchAllFrom] in *.
  destruct k as [|k].
  - destruct (matchHere (String c s)) as [[t r]|] eqn:H; [|by apply (IH 0 e es)].
    destruct (matchHere_inv _ _ _ H) as [Hwf Heq].
    destruct (tokenText_tail t r Hwf) as (u & Hu & Hlen & Hnb).
    rewrite Hu in Heq. inversion Heq as [[Hc Hs]]. rewrite Hlen.
    destruct r as [|c' r].
    + inversion He; subst. exists []. simpl. f_equal.
      apply matchAllFrom_short. by rewrite append_empty_r.
    + rewrite <- Hs in Hnb. destruct (IH _ e es Hnb He) as [front Hfront].
      exists (t :: front). by rewrite <- Hs, Hfront.
  - destruct Hk as [Hc Hk].
    destruct (matchHere (String c s)) as [[t r]|] eqn:H.
    { by apply matchHere_bracket in H. }
    by apply (IH k e es).
Qed.

Lemma matchEnd_matchAll s e es :
  matchEnd s = e :: es -> exists front, matchAll s = (front ++ [e])%list.
Proof. intros He. by apply (matchEnd_matchAllFrom s 0 e es). Qed.

End Pattern_order.

(** ** Start and end of the parsed lines *)

Lemma nondecreasing_app_r a b : nondecreasing (a ++ b) -> nondecreasing b.
Proof.
  intros H i x y Hx Hy. apply (H (length a + i) x y).
  - by rewrite lookup_app_r, Nat.add_comm, Nat.add_sub by lia.
  - replace (S (length a + i)) with (length a + S i) by lia.
    by rewrite lookup_app_r, Nat.add_comm, Nat.add_sub by lia.
Qed.

Lemma nondecreasing_app_l a b : nondecreasing (a ++ b) -> nondecreasing a.
Proof.
  intros H i x y Hx Hy. apply (H i x y); by apply lookup_app_l_Some.
Qed.

Lemma nondecreasing_app_le a b x y :
  nondecreasing (a ++ b) -> x ∈ a -> y ∈ b -> le x y = true.
Proof.
  intros H Hx Hy.
  apply list_elem_of_lookup in Hx as [i Hi]. apply list_elem_of_lookup in Hy as [j Hj].
  apply (nondecreasing_le (a ++ b) i (length a + j)); [done| | |].
  - apply lookup_lt_Some in Hi. lia.
  - by apply lookup_app_l_Some.
  - by rewrite lookup_app_r, Nat.add_comm, Nat.add_sub by lia.
Qed.

Lemma nondecreasing_head x l y : nondecreasing (x :: l) -> y ∈ l -> le x y = true.
Proof.
  intros H Hy. apply (nondecreasing_app_le [x] l x y); [done| |done].
  apply list_elem_of_here.
Qed.

Lemma stampsOf_nonneg lines v : v ∈ stampsOf lines -> le zero v = true.
Proof.
  induction lines as [|raw rest IH]; simpl; [intros H; by apply elem_of_nil in H|].
  rewrite elem_of_app. intros [Hv|Hv]; [|by apply IH].
  apply list_elem_of_fmap in Hv as (t & -> & Ht).
  apply nonneg_le_zero, timeOf_nonneg.
  pose proof (matchAllFrom_wellFormed (trim raw) 0) as Hwf.
  rewrite Forall_forall in Hwf. by apply Hwf.
Qed.

Lemma parseLineResult_lastTime raw st :
  lastTime (parseLineResult raw st)
  = match matchEnd (trim raw) with e :: _ => timeOf e | [] => lineStart raw st end.
Proof. unfold lineStart. by open_parseLine. Qed.

Lemma parseLineResult_old raw st j el :
  elems st !! j = Some el ->
  exists el',
    elems (parseLineResult raw st) !! j = Some el'
    /\ dataStart el' = dataStart el
    /\ (dataEnd el' = dataEnd el
        \/ exists first rest,
             matchAll (trim raw) = first :: rest /\ dataEnd el' = timeOf first).
Proof.
  intros Hel. pose proof (lookup_lt_Some _ _ _ Hel) as Hj.
  assert (Hkeep : (elems st ++ [createLine]) !! j = Some el) by by apply lookup_app_l_Some.
  unfold parseLineResult.
  destruct (matchAll (trim raw)) as [|first rest] eqn:Hall.
  - destruct (matchEnd (trim raw)); cbn [elems];
      rewrite !list_lookup_alter_ne by lia; rewrite Hkeep; eauto.
  - destruct (lineElementsWithoutEndingTime st) as [|p ps] eqn:Ep.
    + destruct (matchEnd (trim raw)); cbn [elems];
        rewrite !list_lookup_alter_ne by lia; rewrite Hkeep; eauto.
    + destruct (matchEnd (trim raw)); cbn [elems];
        rewrite !list_lookup_alter_ne by lia; rewrite closeAll_lookup, Hkeep;
        case_bool_decide; simpl; eauto 10.
Qed.

Lemma parseLineResult_new raw st :
  exists el,
    elems (parseLineResult raw st) !! length (elems st) = Some el
    /\ dataStart el = lineStart raw st /\ dataEnd el = lineEnd raw.
Proof.
  unfold lineStart, lineEnd. open_parseLine;
    rewrite !list_lookup_alter_eq, ?closeAll_lookup;
    rewrite lookup_app_r, Nat.sub_diag by lia; simpl;
    try case_bool_decide; simpl; eexists; (split; [reflexivity|]); split; reflexivity.
Qed.

Lemma cursorInvariant_step n0 raw rest st :
  nondecreasing (stampsOf (raw :: rest)) ->
  cursorInvariant n0 st (raw :: rest) ->
  cursorInvariant n0 (parseLineResult raw st) rest.
Proof.
  intros Hsorted (Hnan & Hfuture & Hlines). cbn [stampsOf] in *.
  set (vs := timeOf <$> matchAll (trim raw)) in *.
  assert (Hvs : forall v, v ∈ vs -> le (lastTime st) v = true).
  { intros v Hv. apply Hfuture, elem_of_app. by left. }
  assert (Hrest : forall v, v ∈ stampsOf rest -> le (lastTime st) v = true).
  { intros v Hv. apply Hfuture, elem_of_app. by right. }
  (* the leading and the trailing time stamp among those of the line *)
  assert (Hb : forall b bs, matchStart (trim raw) = b :: bs ->
                 exists l, vs = timeOf b :: l).
  { intros b bs H. destruct (matchStart_matchAll _ _ _ H) as [r Hr].
    exists (timeOf <$> r). subst vs. by rewrite Hr. }
  assert (He : forall e es, matchEnd (trim raw) = e :: es ->
                 exists l, vs = l ++ [timeOf e]).
  { intros e es H. destruct (matchEnd_matchAll _ _ _ H) as [f Hf].
    exists (timeOf <$> f). subst vs. by rewrite Hf, fmap_app. }
  assert (Hbe : forall b bs e es,
             matchStart (trim raw) = b :: bs -> matchEnd (trim raw) = e :: es ->
             le (timeOf b) (timeOf e) = true).
  { intros b bs e es H1 H2.
    destruct (Hb _ _ H1) as [l Hl]. destruct (He _ _ H2) as [l' Hl'].
    assert (Hin : timeOf e ∈ vs) by (rewrite Hl'; apply elem_of_app; right; apply list_elem_of_here).
    rewrite Hl in Hin. apply elem_of_cons in Hin as [->|Hin].
    - apply le_refl. apply (le_notNaN_r (lastTime st)), Hvs. rewrite Hl. apply list_elem_of_here.
    - apply (nondecreasing_head _ l); [|done]. rewrite <- Hl. by apply nondecreasing_app_l in Hsorted. }
  (* the new cursor *)
  pose proof (parseLineResult_lastTime raw st) as Hlast.
  assert (Hcur : le (lastTime st) (lastTime (parseLineResult raw st)) = true
                 /\ (forall v, v ∈ stampsOf rest ->
                       le (lastTime (parseLineResult raw st)) v = true)
                 /\ le (lineStart raw st) (lastTime (parseLineResult raw st)) = true
                 /\ le (lineStart raw st) (lineEnd raw) = true).
  { rewrite Hlast. unfold lineStart, lineEnd.
    destruct (matchEnd (trim raw)) as [|e es] eqn:Hend;
      destruct (matchStart (trim raw)) as [|b bs] eqn:Hstart.
    - repeat split; try by apply le_refl. { done. } by apply le_Infinity.
    - destruct (Hb _ _ eq_refl) as [l Hl].
      assert (Hin : timeOf b ∈ vs) by (rewrite Hl; apply list_elem_of_here).
      pose proof (Hvs _ Hin) as Hle. pose proof (le_notNaN_r _ _ Hle) as Hn.
      repeat split; [done| |by apply le_refl|by apply le_Infinity].
      intros v Hv. by apply (nondecreasing_app_le vs (stampsOf rest)).
    - destruct (He _ _ eq_refl) as [l Hl].
      assert (Hin : timeOf e ∈ vs) by (rewrite Hl; apply elem_of_app; right; apply list_elem_of_here).
      pose proof (Hvs _ Hin) as Hle.
      repeat split; [done| |done|done].
      intros v Hv. by apply (nondecreasing_app_le vs (stampsOf rest)).
    - destruct (He _ _ eq_refl) as [l Hl].
      assert (Hin : timeOf e ∈ vs) by (rewrite Hl; apply elem_of_app; right; apply list_elem_of_here).
      pose proof (Hvs _ Hin) as Hle.
      repeat split; [done| |by eapply Hbe|by eapply Hbe].
      intros v Hv. by apply (nondecreasing_app_le vs (stampsOf rest)). }
  destruct Hcur as (Hup & Hfuture' & Hstart & Hwin).
  split; [by apply (le_notNaN_r (lastTime st))|]. split; [done|].
  intros i el Hi Hel.
  destruct (decide (i < length (elems st))) as [Hlt|Hge].
  - destruct (lookup_lt_is_Some_2 _ _ Hlt) as [old Hold].
    destruct (Hlines _ _ Hi Hold) as [Hs Hw].
    destruct (parseLineResult_old raw st i old Hold) as (el' & Hel' & Hst & Hen).
    rewrite Hel in Hel'. inversion Hel'; subst el'. rewrite Hst. split.
    + by apply (le_trans _ (lastTime st)).
    + destruct Hen as [->|(first & r & Hall & ->)]; [done|].
      apply (le_trans _ (lastTime st)); [done|]. apply Hvs. subst vs. rewrite Hall.
      apply list_elem_of_here.
  - destruct (parseLineResult_new raw st) as (new & Hnew & Hst & Hen).
    assert (i = length (elems st)) as ->.
    { apply lookup_lt_Some in Hel. rewrite parseLineResult_length in Hel. lia. }
    rewrite Hel in Hnew. inversion Hnew; subst new. by rewrite Hst, Hen.
Qed.

Lemma cursorInvariant_run n0 lines : forall st,
  nondecreasing (stampsOf lines) ->
  cursorInvariant n0 st lines ->
  cursorInvariant n0 (parseLinesResult lines st) [].
Proof.
  induction lines as [|raw rest IH]; intros st Hsorted Hinv; [done|].
  simpl. fold (parseLinesResult rest (parseLineResult raw st)).
  apply IH.
  - cbn [stampsOf] in Hsorted. by apply nondecreasing_app_r in Hsorted.
  - by apply cursorInvariant_step.
Qed.

(** Every line made by the loop started with cursor 0, on text whose time
    stamps never go back, starts no later than it ends. *)
Lemma parseLinesResult_start_le_end prior lines i el :
  nondecreasing (stampsOf lines) ->
  length prior <= i ->
  elems (parseLinesResult lines {| elems := prior; lastTime := zero;
                                   lineElementsWithoutEndingTime := [] |}) !! i = Some el ->
  le (dataStart el) (dataEnd el) = true.
Proof.
  intros Hsorted Hi Hel.
  eapply (cursorInvariant_run (length prior) lines); [done| |exact Hi|exact Hel].
  split; [done|]. split.
  - intros v Hv. cbn [lastTime]. by apply (stampsOf_nonneg lines).
  - intros j e Hj He. apply lookup_lt_Some in He. cbn [elems] in He. lia.
Qed.

(** C7, as the code has it.  When the time stamps of the text, read in
    order, never go back, every line that [parseLyrics] makes and whose
    end is resolved has its start no later than its end. *)
Theorem parseLyrics_start_le_end textOfHTML self c :
  element self = Some c ->
  nondecreasing (stampsOf (splitLines (trim (textContent textOfHTML self c)))) ->
  exists self',
    parseLyrics textOfHTML self = Some self'
    /\ forall i el,
         length (lineElements self) <= i ->
         lineElements self' !! i = Some el ->
         resolved el ->
         le (dataStart el) (dataEnd el) = true.
Proof.
  intros Hel Hsorted.
  destruct ((length (splitLines (trim (textContent textOfHTML self c))) <=? 1)
            && innerHTMLHasDiv self c) eqn:Hg.
  - exists self. split.
    + unfold parseLyrics. rewrite Hel. cbv zeta. by rewrite Hg.
    + intros i el Hi Hl. apply lookup_lt_Some in Hl. lia.
  - eexists. split; [by apply parseLyrics_parses|].
    intros i el Hi Hl _.
    apply (parseLinesResult_start_le_end (lineElements self) _ i el Hsorted Hi).
    rewrite <- Hl. by destruct self.
Qed.

Lemma parseLyrics_start_le_end_witness :
  exists self',
    parseLyrics (fun s => s)
      (fields ("Hello" ++ String LF "[0:05.00]World" ++ String LF "[0:08.00]End")%string
              EmptyString) = Some self'
    /\ (exists el, lineElements self' !! 1 = Some el
                   /\ le (dataStart el) (dataEnd el) = true).
Proof.
  destruct (parseLyrics_start_le_end (fun s => s)
              (fields ("Hello" ++ String LF "[0:05.00]World" ++ String LF "[0:08.00]End")%string
                      EmptyString) _ eq_refl) as (self' & Hp & Hle).
  { intros i a b Ha Hb. destruct i as [|[|i]]; vm_compute in Ha, Hb;
      inversion Ha; inversion Hb; subst; reflexivity. }
  exists self'. split; [exact Hp|].
  assert (Hs : Some self' = Some self') by reflexivity.
  rewrite <- Hp in Hs at 1. vm_compute in Hs. inversion Hs as [Hself]. clear Hs.
  eexists. split; [rewrite <- Hself; reflexivity|].
  apply (Hle 1); [simpl; lia | rewrite <- Hself; reflexivity | discriminate].
Defined.

(** C7 as stated fails: a line whose trailing time stamp is before its
    leading one has a resolved end before its start. *)
Lemma parseLyrics_start_le_end_counterexample :
  exists self el,
    construct (fun s => s) "[0:05.00]la la[0:03.00]"%string
      "[0:05.00]la la[0:03.00]"%string true = Some self
    /\ lineElements self !! 0 = Some el
    /\ resolved el
    /\ dataStart el = ofZ 5 /\ dataEnd el = ofZ 3
    /\ le (dataStart el) (dataEnd el) = false.
Proof.
  do 2 eexists. split; [vm_compute; reflexivity|]. split; [reflexivity|].
  split; [discriminate|]. repeat split.
Qed.

(* ================================================================== *)
(** * Further properties of the code *)

(** ** decodeTimeStamp on arbitrary strings *)

Lemma exec_matchAll s : exec s = head (matchAll s).
Proof.
  unfold matchAll. induction s as [|c s IH]; [reflexivity|].
  cbn [exec matchAllFrom].
  destruct (matchHere (String c s)) as [[t r]|]; [reflexivity|exact IH].
Qed.

Lemma decodeTimeStamp_first_stamp_eq s :
  decodeTimeStamp s = timeOf <$> head (matchAll s).
Proof.
  unfold decodeTimeStamp. rewrite exec_matchAll.
  by destruct (head (matchAll s)).
Qed.

(** X1.  [decodeTimeStamp] is not anchored: on any string it returns the
    value of the first time stamp the parser's pattern finds in it,
    whatever surrounds or follows that stamp, and it raises exactly when
    the pattern finds none. *)
Theorem decodeTimeStamp_first_stamp s :
  (decodeTimeStamp s = None <-> matchAll s = [])
  /\ (forall t ts, matchAll s = t :: ts -> decodeTimeStamp s = Some (timeOf t)).
Proof.
  rewrite decodeTimeStamp_first_stamp_eq. split.
  - by destruct (matchAll s).
  - by intros t ts ->.
Qed.

Lemma decodeTimeStamp_first_stamp_witness :
  decodeTimeStamp "see [1:05.00] and [2:00.00]"%string
  = Some (timeOf (Token "1" "05" "00")).
Proof.
  exact (proj2 (decodeTimeStamp_first_stamp "see [1:05.00] and [2:00.00]"%string)
           (Token "1" "05" "00") [Token "2" "00" "00"] eq_refl).
Defined.

(** ** What parseLyrics appends *)

Lemma parseStart_pendingBelow prior : pendingBelow (parseStart prior).
Proof. intros p Hp. by apply elem_of_nil in Hp. Qed.

Lemma parseLineResult_pendingBelow raw st :
  pendingBelow st -> pendingBelow (parseLineResult raw st).
Proof.
  intros Hst p Hp. rewrite parseLineResult_length.
  apply parseLineResult_pending_sub in Hp as [Hp| ->]; [|lia].
  apply Hst in Hp. lia.
Qed.

Lemma parseLinesResult_pendingBelow lines : forall st,
  pendingBelow st -> pendingBelow (parseLinesResult lines st).
Proof.
  induction lines as [|raw rest IH]; intros st Hst; [done|].
  simpl. fold (parseLinesResult rest (parseLineResult raw st)).
  by apply IH, parseLineResult_pendingBelow.
Qed.

(** A line that is not pending is never written again. *)
Lemma parseLinesResult_keep_settled lines : forall st j,
  j < length (elems st) ->
  j ∉ lineElementsWithoutEndingTime st ->
  elems (parseLinesResult lines st) !! j = elems st !! j.
Proof.
  induction lines as [|raw rest IH]; intros st j Hj Hp; [done|].
  simpl. fold (parseLinesResult rest (parseLineResult raw st)).
  rewrite IH.
  - by apply parseLineResult_keep.
  - rewrite parseLineResult_length. lia.
  - intros Hin. apply parseLineResult_pending_sub in Hin as [Hin| ->]; [done|lia].
Qed.

(** The lines made before the loop starts are out of its reach. *)
Lemma parseLinesResult_prior prior lines :
  take (length prior) (elems (parseLinesResult lines (parseStart prior))) = prior.
Proof.
  apply list_eq. intros j.
  destruct (decide (j < length prior)) as [Hj|Hj].
  - rewrite lookup_take_lt by done.
    apply (parseLinesResult_keep (length prior) lines (parseStart prior)); [done| |done].
    intros p Hp. by apply elem_of_nil in Hp.
  - rewrite lookup_take_ge by lia. symmetry. apply lookup_ge_None. lia.
Qed.

(** X2.  [parseLyrics] never raises: [decodeTimeStamp] is only given
    text the pattern has matched.  It keeps the line elements it already
    has, unchanged and in place, and appends the new ones after them: none
    when the container is missing or the guard fires, otherwise one per
    piece of the trimmed text, so at least one.  Nothing else of the object
    changes, apart from the content of the container. *)
Theorem parseLyrics_appends textOfHTML self :
  exists self' new,
    parseLyrics textOfHTML self = Some self'
    /\ self' = withLineElements (lineElements self ++ new)
                 (withElement (element self') self)
    /\ match element self with
       | None => new = [] /\ self' = self
       | Some c =>
           if (length (splitLines (trim (textContent textOfHTML self c))) <=? 1)%nat
              && innerHTMLHasDiv self c
           then new = [] /\ self' = self
           else length new = length (splitLines (trim (textContent textOfHTML self c)))
                /\ 1 <= length new
                /\ element self' = Some (Lines (length (lineElements self)))
       end.
Proof.
  destruct (element self) as [c|] eqn:Hel.
  2:{ exists self, []. rewrite parseLyrics_no_element by done.
      repeat split. rewrite app_nil_r. by destruct self. }
  destruct ((length (splitLines (trim (textContent textOfHTML self c))) <=? 1)%nat
            && innerHTMLHasDiv self c) eqn:Hg.
  { exists self, []. split.
    - unfold parseLyrics. rewrite Hel. cbv zeta. by rewrite Hg.
    - repeat split. rewrite app_nil_r. by destruct self. }
  set (lines := splitLines (trim (textContent textOfHTML self c))) in *.
  set (els := elems (parseLinesResult lines (parseStart (lineElements self)))).
  exists (withLineElements els (withElement (Some (Lines (length (lineElements self)))) self)),
         (drop (length (lineElements self)) els).
  split; [by apply parseLyrics_parses|].
  assert (Hels : els = lineElements self ++ drop (length (lineElements self)) els).
  { rewrite <- (take_drop (length (lineElements self)) els) at 1.
    f_equal. apply parseLinesResult_prior. }
  assert (Hlen : length (drop (length (lineElements self)) els) = length lines).
  { rewrite length_drop. unfold els. rewrite parseLinesResult_length. simpl. lia. }
  split; [|split; [exact Hlen|split]].
  - rewrite <- Hels. by destruct self.
  - rewrite Hlen. apply splitLines_length_pos.
  - by destruct self.
Qed.

(** ** The records of the parsed lines *)

Lemma parseLineResult_old_fixed raw st j el :
  elems st !! j = Some el ->
  exists el',
    elems (parseLineResult raw st) !! j = Some el'
    /\ dataStart el' = dataStart el
    /\ innerHTML el' = innerHTML el
    /\ active el' = active el.
Proof.
  intros Hel. pose proof (lookup_lt_Some _ _ _ Hel) as Hj.
  assert (Hkeep : (elems st ++ [createLine]) !! j = Some el) by by apply lookup_app_l_Some.
  unfold parseLineResult.
  destruct (matchAll (trim raw)) as [|first rest] eqn:Hall.
  - destruct (matchEnd (trim raw)); cbn [elems];
      rewrite !list_lookup_alter_ne by lia; rewrite Hkeep; eauto.
  - destruct (lineElementsWithoutEndingTime st) as [|p ps] eqn:Ep.
    + destruct (matchEnd (trim raw)); cbn [elems];
        rewrite !list_lookup_alter_ne by lia; rewrite Hkeep; eauto.
    + destruct (matchEnd (trim raw)); cbn [elems];
        rewrite !list_lookup_alter_ne by lia; rewrite closeAll_lookup, Hkeep;
        case_bool_decide; simpl; eauto 10.
Qed.

Lemma parseLineResult_new_full raw st :
  exists el,
    elems (parseLineResult raw st) !! length (elems st) = Some el
    /\ dataStart el = lineStart raw st /\ dataEnd el = lineEnd raw
    /\ innerHTML el = lineText raw /\ active el = false.
Proof.
  unfold lineStart, lineEnd, lineText. open_parseLine;
    rewrite !list_lookup_alter_eq, ?closeAll_lookup;
    rewrite lookup_app_r, Nat.sub_diag by lia; simpl;
    try case_bool_decide; simpl; eexists; (split; [reflexivity|]);
    repeat split; reflexivity.
Qed.

Lemma parseLinesResult_fixed lines : forall st j el,
  elems st !! j = Some el ->
  exists el',
    elems (parseLinesResult lines st) !! j = Some el'
    /\ dataStart el' = dataStart el
    /\ innerHTML el' = innerHTML el
    /\ active el' = active el.
Proof.
  induction lines as [|raw rest IH]; intros st j el Hel; [by exists el|].
  simpl. fold (parseLinesResult rest (parseLineResult raw st)).
  destruct (parseLineResult_old_fixed raw st j el Hel) as (el1 & H1 & Hs1 & Hh1 & Ha1).
  destruct (IH _ _ _ H1) as (el2 & H2 & Hs2 & Hh2 & Ha2).
  exists el2. repeat split; congruence.
Qed.

Lemma lines_split (lines : list string) k raw :
  lines !! k = Some raw ->
  lines = take k lines ++ raw :: drop (S k) lines /\ length (take k lines) = k.
Proof.
  intros Hk. split; [by rewrite take_drop_middle|].
  rewrite length_take. apply lookup_lt_Some in Hk. lia.
Qed.

(** The line made from the raw line of rank [k], as it is at the end of
    the loop. *)
Lemma parseLinesResult_nth lines st k raw :
  lines !! k = Some raw ->
  exists el,
    elems (parseLinesResult lines st) !! (length (elems st) + k) = Some el
    /\ dataStart el = lineStart raw (parseLinesResult (take k lines) st)
    /\ innerHTML el = lineText raw /\ active el = false.
Proof.
  intros Hk. destruct (lines_split lines k raw Hk) as [Hsplit Hlen].
  set (before := parseLinesResult (take k lines) st).
  assert (Hb : length (elems before) = length (elems st) + k).
  { unfold before. by rewrite parseLinesResult_length, Hlen. }
  assert (Heq : parseLinesResult lines st
                = parseLinesResult (drop (S k) lines) (parseLineResult raw before)).
  { change (parseLinesResult (drop (S k) lines) (parseLineResult raw before))
      with (parseLinesResult (raw :: drop (S k) lines) before).
    unfold before. by rewrite <- parseLinesResult_app, <- Hsplit. }
  rewrite Heq.
  destruct (parseLineResult_new_full raw before) as (el & Hel & Hs & _ & Hh & Ha).
  rewrite Hb in Hel.
  destruct (parseLinesResult_fixed (drop (S k) lines) _ _ _ Hel)
    as (el' & Hel' & Hs' & Hh' & Ha').
  exists el'. repeat split; congruence.
Qed.




(** X4.  Where a line starts.  The first line starts at its leading time
    stamp, or at 0 without one.  Any other line starts at its leading time
    stamp; without one it starts at the trailing time stamp of the line
    before it, and when that line has none either, where that line
    starts. *)
Theorem parseLines_start prior lines :
  (forall raw rest, lines = raw :: rest ->
     exists el,
       elems (parseLinesResult lines (parseStart prior)) !! length prior = Some el
       /\ dataStart el = match matchStart (trim raw) with
                         | b :: _ => timeOf b
                         | [] => zero
                         end)
  /\ (forall k A B,
        lines !! k = Some A -> lines !! S k = Some B ->
        exists elA elB,
          elems (parseLinesResult lines (parseStart prior)) !! (length prior + k) = Some elA
          /\ elems (parseLinesResult lines (parseStart prior)) !! (length prior + S k) = Some elB
          /\ dataStart elB = match matchStart (trim B) with
                             | b :: _ => timeOf b
                             | [] => match matchEnd (trim A) with
                                     | e :: _ => timeOf e
                                     | [] => dataStart elA
                                     end
                             end).
Proof.
  split.
  - intros raw rest ->.
    destruct (parseLinesResult_nth (raw :: rest) (parseStart prior) 0 raw eq_refl)
      as (el & Hel & Hs & _).
    exists el. cbn [elems parseStart] in Hel. rewrite Nat.add_0_r in Hel.
    split; [exact Hel|]. rewrite Hs. reflexivity.
  - intros k A B HA HB.
    destruct (parseLinesResult_nth lines (parseStart prior) k A HA) as (elA & HelA & HsA & _).
    destruct (parseLinesResult_nth lines (parseStart prior) (S k) B HB) as (elB & HelB & HsB & _).
    exists elA, elB. split; [exact HelA|]. split; [exact HelB|].
    rewrite HsB. unfold lineStart at 1.
    destruct (matchStart (trim B)); [|reflexivity].
    rewrite (take_S_r _ _ _ HA), parseLinesResult_app.
    change (parseLinesResult [A] ?s) with (parseLineResult A s).
    rewrite parseLineResult_lastTime.
    destruct (matchEnd (trim A)); [|reflexivity]. by rewrite HsA.
Qed.

Lemma parseLines_start_witness :
  exists elA elB,
    elems (parseLinesResult ["[0:07.00]one"; "two"]%string (parseStart [])) !! 0 = Some elA
    /\ elems (parseLinesResult ["[0:07.00]one"; "two"]%string (parseStart [])) !! 1 = Some elB
    /\ dataStart elB = dataStart elA.
Proof.
  destruct (proj2 (parseLines_start [] ["[0:07.00]one"; "two"]%string)
              0 "[0:07.00]one"%string "two"%string eq_refl eq_refl)
    as (elA & elB & HA & HB & Hs).
  exists elA, elB. repeat split; [exact HA|exact HB|exact Hs].
Defined.

Lemma parseLineResult_pending_end raw st e es p :
  matchEnd (trim raw) = e :: es ->
  p ∈ lineElementsWithoutEndingTime (parseLineResult raw st) ->
  p ∈ lineElementsWithoutEndingTime st.
Proof.
  intros He. unfold parseLineResult. rewrite He.
  destruct (matchAll (trim raw)), (lineElementsWithoutEndingTime st);
    cbn [lineElementsWithoutEndingTime]; rewrite ?elem_of_nil; tauto.
Qed.

(** X5.  A line with a trailing time stamp ends at the value of that
    stamp, and no line read afterwards changes it. *)
Theorem parseLines_own_end prior lines k raw e es :
  lines !! k = Some raw ->
  matchEnd (trim raw) = e :: es ->
  exists stf el,
    parseLines lines (parseStart prior) = Some stf
    /\ elems stf !! (length prior + k) = Some el
    /\ dataEnd el = timeOf e.
Proof.
  intros Hk He. rewrite parseLines_Some. eexists. 
  destruct (lines_split lines k raw Hk) as [Hsplit Hlen].
  set (before := parseLinesResult (take k lines) (parseStart prior)).
  assert (Hb : length (elems before) = length prior + k).
  { unfold before. by rewrite parseLinesResult_length, Hlen. }
  assert (Hpb : pendingBelow before).
  { apply parseLinesResult_pendingBelow, parseStart_pendingBelow. }
  assert (Heq : parseLinesResult lines (parseStart prior)
                = parseLinesResult (drop (S k) lines) (parseLineResult raw before)).
  { change (parseLinesResult (drop (S k) lines) (parseLineResult raw before))
      with (parseLinesResult (raw :: drop (S k) lines) before).
    unfold before. by rewrite <- parseLinesResult_app, <- Hsplit. }
  destruct (parseLineResult_new raw before) as (el & Hel & _ & Hend).
  exists el. split; [reflexivity|].
  fold (parseLinesResult lines (parseStart prior)). rewrite Heq.
  rewrite parseLinesResult_keep_settled.
  - rewrite <- Hb. split; [exact Hel|]. rewrite Hend. unfold lineEnd. by rewrite He.
  - rewrite parseLineResult_length. lia.
  - intros Hin. apply (parseLineResult_pending_end _ _ _ _ _ He) in Hin.
    apply Hpb in Hin. lia.
Qed.

Lemma parseLines_own_end_witness :
  exists stf el,
    parseLines ["one[0:02.00]"; "[0:09.00]two"]%string (parseStart []) = Some stf
    /\ elems stf !! 0 = Some el /\ dataEnd el = ofZ 2.
Proof.
  destruct (parseLines_own_end [] ["one[0:02.00]"; "[0:09.00]two"]%string 0
              "one[0:02.00]"%string (Token "0" "02" "00") [] eq_refl eq_refl)
    as (stf & el & Hp & Hel & Hend).
  exists stf, el. repeat split; [exact Hp|exact Hel|exact Hend].
Defined.

(** Lines without time stamps, read from any loop state: each ends at
    Infinity and starts at the cursor, which they leave where it was. *)
Lemma parseLinesResult_no_stamps_run tail : forall st k raw,
  Forall (fun l => matchAll (trim l) = []) tail ->
  tail !! k = Some raw ->
  exists el,
    elems (parseLinesResult tail st) !! (length (elems st) + k) = Some el
    /\ dataEnd el = Infinity /\ dataStart el = lastTime st.
Proof.
  induction tail as [|l rest IH]; intros st k raw Hall Hk; [done|].
  apply Forall_cons in Hall as [Hl Hrest].
  destruct (matchAll_nil _ Hl) as [Hstart Hend].
  simpl. fold (parseLinesResult rest (parseLineResult l st)).
  destruct k as [|k].
  - destruct (parseLineResult_new l st) as (el & Hel & Hs & He).
    exists el. rewrite Nat.add_0_r.
    destruct (parseLinesResult_no_stamps rest (parseLineResult l st) Hrest) as [_ Hkeep].
    rewrite Hkeep by (rewrite parseLineResult_length; lia).
    split; [exact Hel|]. unfold lineEnd, lineStart in *. rewrite Hend in He.
    rewrite Hstart in Hs. done.
  - destruct (IH (parseLineResult l st) k raw Hrest Hk) as (el & Hel & He & Hs).
    exists el. rewrite parseLineResult_length in Hel.
    replace (length (elems st) + S k) with (S (length (elems st)) + k) by lia.
    split; [exact Hel|]. split; [exact He|].
    rewrite Hs, parseLineResult_lastTime, Hend. unfold lineStart. by rewrite Hstart.
Qed.

(** X6.  The last run of lines.  When a line has no trailing time stamp
    and no line after it has any time stamp, that line and all the lines
    after it end at Infinity for good, and the lines after it start where
    it starts. *)
Theorem parseLines_terminal_run st pre L0 tail :
  matchEnd (trim L0) = [] ->
  Forall (fun l => matchAll (trim l) = []) tail ->
  exists stf el0,
    parseLines (pre ++ L0 :: tail) st = Some stf
    /\ elems stf !! (length (elems st) + length pre) = Some el0
    /\ dataEnd el0 = Infinity
    /\ forall j, j < length tail ->
         exists el,
           elems stf !! (length (elems st) + length pre + S j) = Some el
           /\ dataEnd el = Infinity /\ dataStart el = dataStart el0.
Proof.
  intros HL0 Htail. rewrite parseLines_Some. eexists.
  fold (parseLinesResult (pre ++ L0 :: tail) st). rewrite parseLinesResult_app.
  set (s1 := parseLinesResult pre st).
  assert (Hlen1 : length (elems s1) = length (elems st) + length pre)
    by apply parseLinesResult_length.
  change (parseLinesResult (L0 :: tail) s1)
    with (parseLinesResult tail (parseLineResult L0 s1)).
  destruct (parseLineResult_new L0 s1) as (el0 & Hel0 & Hs0 & He0).
  assert (Hlast : lastTime (parseLineResult L0 s1) = dataStart el0).
  { by rewrite parseLineResult_lastTime, HL0, Hs0. }
  destruct (parseLinesResult_no_stamps tail (parseLineResult L0 s1) Htail) as [_ Hkeep].
  exists el0. split; [reflexivity|]. split; [|split].
  - rewrite Hkeep by (rewrite parseLineResult_length; lia). by rewrite <- Hlen1.
  - rewrite He0. unfold lineEnd. by rewrite HL0.
  - intros j Hj. destruct (lookup_lt_is_Some_2 tail j Hj) as [raw Hraw].
    destruct (parseLinesResult_no_stamps_run tail (parseLineResult L0 s1) j raw Htail Hraw)
      as (el & Hel & He & Hs).
    exists el. rewrite parseLineResult_length, Hlen1 in Hel.
    replace (length (elems st) + length pre + S j)
      with (S (length (elems st) + length pre) + j) by lia.
    split; [exact Hel|]. split; [exact He|]. by rewrite Hs.
Qed.

Lemma parseLines_terminal_run_witness :
  exists stf el0 el1,
    parseLines ["[0:01.00]a[0:02.00]"; "[0:03.00]b"; "c"]%string (parseStart []) = Some stf
    /\ elems stf !! 1 = Some el0 /\ dataEnd el0 = Infinity
    /\ elems stf !! 2 = Some el1 /\ dataEnd el1 = Infinity
    /\ dataStart el1 = dataStart el0.
Proof.
  destruct (parseLines_terminal_run (parseStart []) ["[0:01.00]a[0:02.00]"%string]
              "[0:03.00]b"%string ["c"%string] eq_refl ltac:(repeat constructor))
    as (stf & el0 & Hp & Hel0 & He0 & Htail).
  destruct (Htail 0 ltac:(simpl; lia)) as (el1 & Hel1 & He1 & Hs1).
  exists stf, el0, el1. repeat split; assumption.
Defined.

(** ** When synchronizer starts the scroller *)

Lemma activate_snd el c : (activate el c).2 = c || negb (active el).
Proof. unfold activate. destruct (active el), c; reflexivity. Qed.

Lemma deactivate_snd el c : (deactivate el c).2 = c || active el.
Proof. unfold deactivate. destruct (active el), c; reflexivity. Qed.

Lemma flipsFrom_cons time current i el rest :
  flipsFrom time current i (el :: rest)
  <-> active el <> wantActive time current i el \/ flipsFrom time current (S i) rest.
Proof.
  unfold flipsFrom. split.
  - intros (j & e & Hj & Hne). destruct j as [|j]; simpl in Hj.
    + inversion Hj; subst. left. by rewrite Nat.add_0_r in Hne.
    + right. exists j, e. split; [done|]. by rewrite Nat.add_succ_r in Hne.
  - intros [Hne|(j & e & Hj & Hne)].
    + exists 0, el. split; [done|]. by rewrite Nat.add_0_r.
    + exists (S j), e. split; [done|]. by rewrite Nat.add_succ_r.
Qed.

(** The two accumulators of the [forEach]: [changed] is set exactly when
    some line flips, and the lines collected are those left active. *)
Lemma synchronizeFrom_accumulators time current els : forall i changed act,
  (synchronizeFrom time current i els changed act).2
  = act ++ wantedFrom time current i els
  /\ ((synchronizeFrom time current i els changed act).1.2 = true
      <-> changed = true \/ flipsFrom time current i els).
Proof.
  induction els as [|el rest IH]; intros i changed act.
  - simpl. rewrite app_nil_r. split; [done|]. split; [by left|].
    intros [?|(j & e & Hj & _)]; done.
  - cbn [synchronizeFrom wantedFrom]. rewrite flipsFrom_cons. unfold wantActive.
    destruct (ge time (dataStart el) && le time (dataEnd el) && neq (dataEnd el) Infinity);
      [|destruct ((0 <=? current)%Z && (Z.of_nat i =? current)%Z)]; cbn [orb].
    + pose proof (activate_snd el changed) as Hc.
      destruct (activate el changed) as [el' c']. cbn [snd] in Hc.
      destruct (IH (S i) c' (act ++ [i])) as [Ha Hch].
      destruct (synchronizeFrom _ _ _ _ _ _) as [[r c''] a'']. cbn [fst snd] in *.
      split; [by rewrite Ha, <- app_assoc|].
      rewrite Hch, Hc. destruct changed, (active el); simpl; intuition congruence.
    + pose proof (activate_snd el changed) as Hc.
      destruct (activate el changed) as [el' c']. cbn [snd] in Hc.
      destruct (IH (S i) c' (act ++ [i])) as [Ha Hch].
      destruct (synchronizeFrom _ _ _ _ _ _) as [[r c''] a'']. cbn [fst snd] in *.
      split; [by rewrite Ha, <- app_assoc|].
      rewrite Hch, Hc. destruct changed, (active el); simpl; intuition congruence.
    + pose proof (deactivate_snd el changed) as Hc.
      destruct (deactivate el changed) as [el' c']. cbn [snd] in Hc.
      destruct (IH (S i) c' act) as [Ha Hch].
      destruct (synchronizeFrom _ _ _ _ _ _) as [[r c''] a'']. cbn [fst snd] in *.
      split; [done|].
      rewrite Hch, Hc. destruct changed, (active el); simpl; intuition congruence.
Qed.

(** [synchronizer] as one call of the shared block. *)
Lemma synchronizer_unfold time layout self :
  exists changed,
    synchronizer time layout self
    = startScroller layout changed
        (wantedFrom time (currentLine self) 0 (lineElements self))
        (withLineElements
           (imap (fun j el => setActive (wantActive time (currentLine self) j el) el)
                 (lineElements self)) self)
    /\ (changed = true <-> flipsFrom time (currentLine self) 0 (lineElements self)).
Proof.
  unfold synchronizer.
  pose proof (synchronizeFrom_elems time (currentLine self) (lineElements self) 0 false []) as He.
  destruct (synchronizeFrom_accumulators time (currentLine self) (lineElements self) 0 false [])
    as [Ha Hc].
  destruct (synchronizeFrom _ _ _ _ _ _) as [[els c] a]. cbn [fst snd] in *.
  exists c. subst. split; [done|]. rewrite Hc. intuition congruence.
Qed.

Lemma wantedFrom_elem time current els : forall i j,
  j ∈ wantedFrom time current i els
  <-> exists k el, j = i + k /\ els !! k = Some el /\ wantActive time current j el = true.
Proof.
  induction els as [|el rest IH]; intros i j.
  - simpl. rewrite elem_of_nil. split; [done|]. by intros (k & e & _ & ? & _).
  - cbn [wantedFrom].
    assert (Hrest : j ∈ wantedFrom time current (S i) rest
                    <-> exists k e, j = i + S k /\ rest !! k = Some e
                                    /\ wantActive time current j e = true).
    { rewrite IH. split; intros (k & e & -> & ? & ?); exists k, e;
        (split; [lia|]); split; try done;
        by replace (i + S k) with (S i + k) in * by lia. }
    destruct (wantActive time current i el) eqn:Hw.
    + rewrite elem_of_cons, Hrest. split.
      * intros [->|(k & e & -> & ? & ?)].
        -- exists 0, el. by rewrite Nat.add_0_r.
        -- by exists (S k), e.
      * intros (k & e & -> & Hk & Hwk). destruct k as [|k].
        -- left. lia.
        -- right. by exists k, e.
    + rewrite Hrest. split.
      * intros (k & e & -> & ? & ?). by exists (S k), e.
      * intros (k & e & -> & Hk & Hwk). destruct k as [|k].
        -- simpl in Hk. inversion Hk; subst. rewrite Nat.add_0_r in Hwk. congruence.
        -- by exists k, e.
Qed.

Lemma wantedFrom_sorted time current els : forall i,
  StronglySorted lt (wantedFrom time current i els)
  /\ Forall (fun j => i <= j) (wantedFrom time current i els).
Proof.
  induction els as [|el rest IH]; intros i; [split; constructor|].
  cbn [wantedFrom]. destruct (IH (S i)) as [Hs Hb].
  destruct (wantActive time current i el).
  - split.
    + constructor; [done|]. eapply Forall_impl; [exact Hb|]. simpl. lia.
    + constructor; [lia|]. eapply Forall_impl; [exact Hb|]. simpl. lia.
  - split; [done|]. eapply Forall_impl; [exact Hb|]. simpl. lia.
Qed.

(** X7.  A time update that flips no line starts nothing: calling
    [synchronizer] again at the same playback position leaves the object
    as the first call left it, scroll target, timer and interval
    included. *)
Theorem synchronizer_idempotent time layout self :
  synchronizer time layout (synchronizer time layout self)
  = synchronizer time layout self.
Proof.
  set (s1 := synchronizer time layout self).
  destruct (synchronizer_unfold time layout s1) as (ch & -> & Hch).
  assert (Hsame : forall j el, lineElements s1 !! j = Some el ->
                    active el = wantActive time (currentLine s1) j el).
  { intros j el. unfold s1.
    rewrite synchronizer_lineElements, list_lookup_imap, synchronizer_currentLine.
    destruct (lineElements self !! j) as [e|]; [|done]. simpl. intros [= <-]. simpl.
    by apply wantActive_windows. }
  assert (ch = false) as ->.
  { apply not_true_iff_false. rewrite Hch. intros (j & el & Hj & Hne).
    rewrite Nat.add_0_l in Hne. by apply Hne, Hsame. }
  assert (imap (fun j el => setActive (wantActive time (currentLine s1) j el) el)
               (lineElements s1) = lineElements s1) as ->.
  { apply list_eq. intros j. rewrite list_lookup_imap.
    destruct (lineElements s1 !! j) as [el|] eqn:Hj; [|done]. simpl.
    rewrite <- (Hsame j el Hj). by destruct el. }
  unfold startScroller. by destruct s1.
Qed.

(** X8.  When [synchronizer] starts the scroller.  If some line flips and
    some line is left active, the timer is set to the whole duration, the
    interval is scheduled, and the target is the middle between the top of
    the first and the bottom of the last line left active, less half the
    height of the container; the scroll position itself is not touched.
    If no line flips, or none is left active, target, timer, interval and
    scroll position stay as they are. *)
Theorem synchronizer_starts_scroller time layout self :
  let wanted := wantedFrom time (currentLine self) 0 (lineElements self) in
  let self' := synchronizer time layout self in
  (forall j, j ∈ wanted <->
     exists el, lineElements self !! j = Some el
                /\ wantActive time (currentLine self) j el = true)
  /\ StronglySorted lt wanted
  /\ elementScrollTop self' = elementScrollTop self
  /\ (forall first rest,
        flipsFrom time (currentLine self) 0 (lineElements self) ->
        wanted = first :: rest ->
        scrollTop self' = scrollTarget layout first (List.last wanted first)
        /\ scrollerTimer self' = scrollerIntervalDuration self
        /\ scrollerInterval self' = true)
  /\ (~ flipsFrom time (currentLine self) 0 (lineElements self) \/ wanted = [] ->
        scrollTop self' = scrollTop self
        /\ scrollerTimer self' = scrollerTimer self
        /\ scrollerInterval self' = scrollerInterval self).
Proof.
  intros wanted self'. subst self'.
  destruct (synchronizer_unfold time layout self) as (ch & -> & Hch).
  fold wanted. split; [|split; [|split; [|split]]].
  - intros j. unfold wanted. rewrite wantedFrom_elem. split.
    + intros (k & el & -> & ? & ?). by exists el.
    + intros (el & ? & ?). by exists j, el.
  - apply wantedFrom_sorted.
  - unfold startScroller. destruct ch, wanted; by destruct self.
  - intros first rest Hflip Hw. apply Hch in Hflip as ->. rewrite Hw.
    unfold startScroller, scrollTarget. by destruct self.
  - intros [Hno| ->].
    + assert (ch = false) as -> by (apply not_true_iff_false; by rewrite Hch).
      unfold startScroller. by destruct self.
    + unfold startScroller. destruct ch; by destruct self.
Qed.

Lemma synchronizer_starts_scroller_witness :
  exists self,
    construct (fun s => s) scenario1 scenario1 true = Some self
    /\ scrollerInterval (synchronizer (ofZ 2) flatLayout self) = true
    /\ scrollerTimer (synchronizer (ofZ 2) flatLayout self) = ofZ 200.
Proof.
  eexists. split; [vm_compute; reflexivity|].
  match goal with |- scrollerInterval (synchronizer _ _ ?obj) = _ /\ _ =>
    destruct (synchronizer_starts_scroller (ofZ 2) flatLayout obj)
      as (_ & _ & _ & Hstart & _);
    destruct (Hstart 0 []) as (_ & Ht & Hi)
  end.
  - exists 0. eexists. split; [reflexivity|]. discriminate.
  - reflexivity.
  - split; [exact Hi|exact Ht].
Defined.

(** ** gotoLine and the override *)

(** Out of range, [gotoLine] only deactivates. *)
Lemma gotoLine_out_of_range_eq (line : Z) layout self :
  (line < 0 \/ Z.of_nat (length (lineElements self)) <= line)%Z ->
  gotoLine line layout self
  = withLineElements (map (setActive false) (lineElements self)) self.
Proof.
  intros Hout. unfold gotoLine.
  pose proof (gotoLineFrom_elems line (lineElements self) 0 false [] (currentLine self)) as He.
  pose proof (gotoLineFrom_miss line (lineElements self) 0 false [] (currentLine self)
                ltac:(simpl; lia)) as [Ha Hc].
  destruct (gotoLineFrom _ _ _ _ _ _) as [[[els c] a] cur]. simpl in *. subst.
  assert (imap (fun j el => setActive (line =? Z.of_nat j)%Z el) (lineElements self)
          = map (setActive false) (lineElements self)) as ->.
  { rewrite <- imap_const. apply imap_ext. intros j el Hj.
    apply lookup_lt_Some in Hj.
    replace (line =? Z.of_nat j)%Z with false; [done|].
    symmetry. apply Z.eqb_neq. lia. }
  unfold startScroller. destruct self; destruct c; reflexivity.
Qed.

Lemma gotoLineFrom_changed line els : forall i changed act current,
  (gotoLineFrom line i els changed act current).1.1.2 = true
  <-> changed = true
      \/ exists j el, els !! j = Some el /\ active el <> (line =? Z.of_nat (i + j))%Z.
Proof.
  induction els as [|el rest IH]; intros i changed act current.
  - simpl. split; [by left|]. intros [?|(j & e & Hj & _)]; done.
  - cbn [gotoLineFrom].
    assert (Hcons : (exists j e, (el :: rest) !! j = Some e
                                 /\ active e <> (line =? Z.of_nat (i + j))%Z)
                    <-> active el <> (line =? Z.of_nat i)%Z
                        \/ exists j e, rest !! j = Some e
                                       /\ active e <> (line =? Z.of_nat (S i + j))%Z).
    { split.
      - intros (j & e & Hj & Hne). destruct j as [|j]; simpl in Hj.
        + inversion Hj; subst. left. by rewrite Nat.add_0_r in Hne.
        + right. exists j, e. split; [done|]. by rewrite Nat.add_succ_r in Hne.
      - intros [Hne|(j & e & Hj & Hne)].
        + exists 0, el. split; [done|]. by rewrite Nat.add_0_r.
        + exists (S j), e. split; [done|]. by rewrite Nat.add_succ_r. }
    rewrite Hcons. destruct (line =? Z.of_nat i)%Z.
    + pose proof (activate_snd el changed) as Hc.
      destruct (activate el changed) as [el' c']. cbn [snd] in Hc.
      specialize (IH (S i) c' (act ++ [i]) line).
      destruct (gotoLineFrom _ _ _ _ _ _) as [[[r c''] a''] cur'']. cbn [fst snd] in *.
      rewrite IH, Hc. destruct changed, (active el); simpl; intuition congruence.
    + pose proof (deactivate_snd el changed) as Hc.
      destruct (deactivate el changed) as [el' c']. cbn [snd] in Hc.
      specialize (IH (S i) c' act current).
      destruct (gotoLineFrom _ _ _ _ _ _) as [[[r c''] a''] cur'']. cbn [fst snd] in *.
      rewrite IH, Hc. destruct changed, (active el); simpl; intuition congruence.
Qed.

Lemma gotoLine_currentLine line layout self :
  currentLine (gotoLine line layout self)
  = if bool_decide (0 <= line < Z.of_nat (length (lineElements self)))%Z
    then line else currentLine self.
Proof.
  unfold gotoLine. case_bool_decide as Hr.
  - pose proof (gotoLineFrom_hit line (lineElements self) 0 false [] (currentLine self)
                  ltac:(simpl; lia)) as [_ Hc].
    destruct (gotoLineFrom _ _ _ _ _ _) as [[[els c] a] cur].
    rewrite startScroller_currentLine. simpl in *. by subst.
  - pose proof (gotoLineFrom_miss line (lineElements self) 0 false [] (currentLine self)
                  ltac:(simpl; lia)) as [_ Hc].
    destruct (gotoLineFrom _ _ _ _ _ _) as [[[els c] a] cur].
    rewrite startScroller_currentLine. simpl in *. by subst.
Qed.

(** X9.  Selecting the line that is already the only active one starts
    nothing: a second [gotoLine] with the same argument, in range or not,
    leaves the object as the first call left it. *)
Theorem gotoLine_idempotent line layout self :
  gotoLine line layout (gotoLine line layout self) = gotoLine line layout self.
Proof.
  set (s1 := gotoLine line layout self).
  assert (Hl1 : lineElements s1
                = imap (fun j el => setActive (line =? Z.of_nat j)%Z el) (lineElements self))
    by apply gotoLine_lineElements.
  assert (Hc1 : currentLine (gotoLine line layout s1) = currentLine s1).
  { rewrite gotoLine_currentLine. case_bool_decide as Hr; [|done].
    unfold s1. rewrite gotoLine_currentLine, bool_decide_eq_true_2; [done|].
    by rewrite Hl1, length_imap in Hr. }
  assert (Hsame : forall j el, lineElements s1 !! j = Some el ->
                    active el = (line =? Z.of_nat j)%Z).
  { intros j el. rewrite Hl1, list_lookup_imap.
    destruct (lineElements self !! j); [|done]. simpl. by intros [= <-]. }
  assert (Hl2 : lineElements (gotoLine line layout s1) = lineElements s1).
  { rewrite gotoLine_lineElements. apply list_eq. intros j. rewrite list_lookup_imap.
    destruct (lineElements s1 !! j) as [el|] eqn:Hj; [|done]. simpl.
    rewrite <- (Hsame j el Hj). by destruct el. }
  revert Hc1 Hl2. unfold gotoLine at 1 2 3.
  pose proof (gotoLineFrom_changed line (lineElements s1) 0 false [] (currentLine s1)) as Hch.
  destruct (gotoLineFrom _ _ _ _ _ _) as [[[els c] a] cur]. cbn [fst snd] in Hch.
  assert (c = false) as ->.
  { apply not_true_iff_false. rewrite Hch. intros [?|(j & el & Hj & Hne)]; [done|].
    by apply Hne, Hsame. }
  unfold startScroller. destruct s1; simpl. by intros -> ->.
Qed.

Lemma parseLyrics_override textOfHTML self self' :
  parseLyrics textOfHTML self = Some self' ->
  currentLine self' = currentLine self
  /\ length (lineElements self) <= length (lineElements self').
Proof.
  intros Hp. destruct (element self) as [c|] eqn:Hc.
  2:{ rewrite parseLyrics_no_element in Hp by done. by inversion Hp; subst. }
  destruct ((length (splitLines (trim (textContent textOfHTML self c))) <=? 1)%nat
            && innerHTMLHasDiv self c) eqn:Hg.
  { unfold parseLyrics in Hp. rewrite Hc in Hp. cbv zeta in Hp. rewrite Hg in Hp.
    by inversion Hp; subst. }
  rewrite (parseLyrics_parses _ _ _ Hc Hg) in Hp. inversion Hp as [Hs]. clear Hp.
  split; [by destruct self|].
  replace (lineElements (withLineElements _ _)) with
    (elems (parseLinesResult (splitLines (trim (textContent textOfHTML self c)))
              {| elems := lineElements self; lastTime := zero;
                 lineElementsWithoutEndingTime := [] |})) by (by destruct self).
  rewrite parseLinesResult_length. cbn [elems]. lia.
Qed.

(** X10.  The override is always unset or the position of a line: the
    constructor leaves it unset, and [synchronizer], [gotoLine] with any
    argument, [scroller] and [parseLyrics] keep it so. *)
Theorem validOverride_kept textOfHTML self :
  validOverride self ->
  (forall time layout, validOverride (synchronizer time layout self))
  /\ (forall line layout, validOverride (gotoLine line layout self))
  /\ validOverride (scroller self)
  /\ (forall self', parseLyrics textOfHTML self = Some self' -> validOverride self')
  /\ (forall text html mediaElement self0,
        construct textOfHTML text html mediaElement = Some self0 -> validOverride self0).
Proof.
  intros Hv. unfold validOverride in *. split; [|split; [|split; [|split]]].
  - intros time layout.
    by rewrite synchronizer_currentLine, synchronizer_lineElements, length_imap.
  - intros line layout.
    rewrite gotoLine_currentLine, gotoLine_lineElements, length_imap.
    case_bool_decide; [by right|done].
  - unfold scroller. destruct (le (scrollerTimer self) zero); by destruct self.
  - intros self' Hp.
    destruct (parseLyrics_override textOfHTML self self' Hp) as [Hcur Hlen].
    rewrite Hcur. lia.
  - intros text html mediaElement self0. unfold construct.
    destruct (parseLyrics textOfHTML (fields text html)) as [s|] eqn:Hp; [|done].
    simpl. intros [= <-]. left.
    destruct (parseLyrics_override textOfHTML _ _ Hp) as [Hcur _].
    assert (He : currentLine (enableLyrics mediaElement s) = currentLine s)
      by (destruct mediaElement, s; reflexivity).
    by rewrite He, Hcur.
Qed.

Lemma validOverride_kept_witness :
  exists self,
    construct (fun s => s) scenario1 scenario1 true = Some self
    /\ validOverride (gotoLine 5 flatLayout (gotoLine 1 flatLayout self)).
Proof.
  eexists. split; [vm_compute; reflexivity|].
  match goal with |- validOverride (gotoLine 5 _ ?obj) =>
    assert (Hvalid : validOverride obj)
      by (right; split; [by vm_compute | by vm_compute]);
    destruct (validOverride_kept (fun s => s) obj Hvalid) as (_ & Hgoto & _)
  end.
  exact (Hgoto 5%Z flatLayout).
Defined.

(** X11.  Once a line in range is selected it stays active through every
    later time update, whatever the playback positions; and a later
    [gotoLine] out of range only hides it until the next time update,
    which activates it again, because the override is not reset. *)
Theorem override_persists (i : nat) layout self :
  i < length (lineElements self) ->
  (forall times layout' s,
      s ∈ sweep times layout' (gotoLine (Z.of_nat i) layout self) ->
      activeAt i s = true)
  /\ (forall line layout' time,
        (line < 0 \/ Z.of_nat (length (lineElements self)) <= line)%Z ->
        let hidden := gotoLine line layout' (gotoLine (Z.of_nat i) layout self) in
        activeAt i hidden = false
        /\ currentLine hidden = Z.of_nat i
        /\ activeAt i (synchronizer time layout' hidden) = true).
Proof.
  intros Hi.
  set (s1 := gotoLine (Z.of_nat i) layout self).
  assert (Hc1 : currentLine s1 = Z.of_nat i).
  { unfold s1. rewrite gotoLine_currentLine, bool_decide_eq_true_2; [done|lia]. }
  assert (Hlen1 : length (lineElements s1) = length (lineElements self)).
  { unfold s1. by rewrite gotoLine_lineElements, length_imap. }
  assert (Hwant : forall time el, wantActive time (Z.of_nat i) i el = true).
  { intros time el. unfold wantActive. apply orb_true_iff. right.
    apply andb_true_iff. split; [apply Z.leb_le; lia|apply Z.eqb_refl]. }
  split.
  - intros times layout' s Hs. apply list_elem_of_lookup in Hs as [k Hk].
    destruct (lookup_lt_is_Some_2 times k) as [t Ht].
    { rewrite <- (sweep_length layout' times s1). by eapply lookup_lt_Some. }
    destruct (lookup_lt_is_Some_2 (lineElements s1) i ltac:(lia)) as [el Hel].
    rewrite (sweep_activeAt _ _ _ _ _ _ _ _ Ht Hk Hel), Hc1. apply Hwant.
  - intros line layout' time Hout hidden.
    assert (Hh : hidden = withLineElements (map (setActive false) (lineElements s1)) s1).
    { unfold hidden. apply gotoLine_out_of_range_eq. by rewrite Hlen1. }
    destruct (lookup_lt_is_Some_2 (lineElements s1) i ltac:(lia)) as [el Hel].
    assert (Hl : lineElements hidden !! i = Some (setActive false el)).
    { rewrite Hh. replace (lineElements (withLineElements _ s1))
        with (map (setActive false) (lineElements s1)) by (by destruct s1).
      by rewrite list_lookup_fmap, Hel. }
    assert (Hc : currentLine hidden = Z.of_nat i).
    { rewrite Hh, <- Hc1. by destruct s1. }
    split; [|split; [exact Hc|]].
    + unfold activeAt. by rewrite Hl.
    + rewrite synchronizer_activeAt, Hl, Hc. apply Hwant.
Qed.

Lemma override_persists_witness :
  exists self,
    construct (fun s => s) scenario1 scenario1 true = Some self
    /\ activeAt 1 (synchronizer (ofZ 0) flatLayout
                     (gotoLine 7 flatLayout (gotoLine (Z.of_nat 1) flatLayout self))) = true.
Proof.
  eexists. split; [vm_compute; reflexivity|].
  match goal with |- activeAt 1 (synchronizer _ _ (gotoLine 7 _ (gotoLine _ _ ?obj))) = _ =>
    destruct (override_persists 1 flatLayout obj ltac:(simpl; lia)) as [_ H];
    destruct (H 7%Z flatLayout (ofZ 0) ltac:(right; simpl; lia)) as (_ & _ & Ha)
  end.
  exact Ha.
Defined.

(** X12.  When [gotoLine] starts the scroller.  For a line in range: if
    that line was inactive or another line was active, the target is set
    to centre the selected line, the timer to the whole duration, and the
    interval is scheduled; if the selected line was the only active one,
    target, timer and interval stay as they are.  The scroll position is
    not touched either way. *)
Theorem gotoLine_starts_scroller (i : nat) layout self :
  i < length (lineElements self) ->
  let self' := gotoLine (Z.of_nat i) layout self in
  let flips := exists j el, lineElements self !! j = Some el
                            /\ active el <> bool_decide (j = i) in
  elementScrollTop self' = elementScrollTop self
  /\ (flips ->
      scrollTop self' = scrollTarget layout i i
      /\ scrollerTimer self' = scrollerIntervalDuration self
      /\ scrollerInterval self' = true)
  /\ (~ flips ->
      scrollTop self' = scrollTop self
      /\ scrollerTimer self' = scrollerTimer self
      /\ scrollerInterval self' = scrollerInterval self).
Proof.
  intros Hi self' flips. subst self'. unfold gotoLine.
  pose proof (gotoLineFrom_changed (Z.of_nat i) (lineElements self) 0 false []
                (currentLine self)) as Hch.
  pose proof (gotoLineFrom_hit (Z.of_nat i) (lineElements self) 0 false []
                (currentLine self) ltac:(simpl; lia)) as [Ha _].
  destruct (gotoLineFrom _ _ _ _ _ _) as [[[els c] a] cur]. cbn [fst snd] in *.
  rewrite Nat2Z.id in Ha. simpl in Ha. subst a.
  assert (Hflips : c = true <-> flips).
  { rewrite Hch. unfold flips. split.
    - intros [?|(j & el & Hj & Hne)]; [done|]. exists j, el. split; [done|].
      intros Heq. apply Hne. rewrite Heq. simpl.
      case_bool_decide; [subst; symmetry; apply Z.eqb_refl|].
      symmetry. apply Z.eqb_neq. lia.
    - intros (j & el & Hj & Hne). right. exists j, el. split; [done|].
      intros Heq. apply Hne. rewrite Heq. simpl.
      case_bool_decide; [subst; apply Z.eqb_refl|]. apply Z.eqb_neq. lia. }
  split; [|split].
  - unfold startScroller. destruct c; by destruct self.
  - intros Hf. apply Hflips in Hf as ->. unfold startScroller, scrollTarget.
    by destruct self.
  - intros Hf. assert (c = false) as -> by (apply not_true_iff_false; by rewrite Hflips).
    unfold startScroller. by destruct self.
Qed.

Lemma gotoLine_starts_scroller_witness :
  exists self,
    construct (fun s => s) scenario1 scenario1 true = Some self
    /\ scrollerInterval (gotoLine (Z.of_nat 1) flatLayout self) = true.
Proof.
  eexists. split; [vm_compute; reflexivity|].
  match goal with |- scrollerInterval (gotoLine _ _ ?obj) = _ =>
    destruct (gotoLine_starts_scroller 1 flatLayout obj ltac:(simpl; lia))
      as (_ & Hstart & _)
  end.
  apply Hstart. exists 1. eexists. split; [reflexivity|]. discriminate.
Defined.

(** ** The synchronizer of the unbundled source *)

Lemma unbundled_synchronizeFrom_elems time els : forall i changed act,
  (Unbundled.synchronizeFrom time i els changed act).1.1
  = map (fun el => setActive (ge time (dataStart el) && le time (dataEnd el)) el) els.
Proof.
  induction els as [|el rest IH]; intros i changed act; [reflexivity|].
  cbn [Unbundled.synchronizeFrom map].
  destruct (ge time (dataStart el) && le time (dataEnd el)).
  - pose proof (activate_fst el changed) as Ha.
    destruct (activate el changed) as [el' c'].
    specialize (IH (S i) c' (act ++ [i])).
    destruct (Unbundled.synchronizeFrom _ _ _ _ _) as [[r c''] a'']. simpl in *. by subst.
  - pose proof (deactivate_fst el changed) as Ha.
    destruct (deactivate el changed) as [el' c'].
    specialize (IH (S i) c' act).
    destruct (Unbundled.synchronizeFrom _ _ _ _ _) as [[r c''] a'']. simpl in *. by subst.
Qed.

(** X13.  In the unbundled source a line is active after a time update
    exactly when the playback position lies in its window, whatever its
    end: a line whose end is Infinity is active at every position from its
    start on. *)
Theorem unbundled_synchronizer_active_iff time layout self (i : nat) el :
  lineElements self !! i = Some el ->
  exists el',
    lineElements (Unbundled.synchronizer time layout self) !! i = Some el'
    /\ dataStart el' = dataStart el /\ dataEnd el' = dataEnd el
    /\ innerHTML el' = innerHTML el
    /\ (active el' = true <-> inWindow time el)
    /\ (dataEnd el = Infinity -> le (dataStart el) time = true -> active el' = true).
Proof.
  intros Hi. unfold Unbundled.synchronizer.
  pose proof (unbundled_synchronizeFrom_elems time (lineElements self) 0 false []) as He.
  destruct (Unbundled.synchronizeFrom _ _ _ _ _) as [[els c] a]. cbn [fst] in He.
  rewrite startScroller_lineElements.
  replace (lineElements (withLineElements els self)) with els by (by destruct self).
  rewrite He, list_lookup_fmap, Hi. simpl. eexists. split; [reflexivity|]. simpl.
  assert (Hiff : ge time (dataStart el) && le time (dataEnd el) = true <-> inWindow time el).
  { unfold inWindow, ge. by rewrite andb_true_iff. }
  do 3 (split; [reflexivity|]). split; [exact Hiff|].
  intros Hinf Hstart. apply Hiff. split; [done|]. rewrite Hinf.
  by apply le_Infinity, (le_notNaN_r (dataStart el)).
Qed.

Lemma unbundled_synchronizer_active_iff_witness :
  exists self el',
    construct (fun s => s) scenario1 scenario1 true = Some self
    /\ lineElements (Unbundled.synchronizer (ofZ 1000) flatLayout self) !! 1 = Some el'
    /\ active el' = true.
Proof.
  eexists. 
  assert (Hc : construct (fun s => s) scenario1 scenario1 true
               = Some (enableLyrics true
                  (withLineElements
                     [ {| dataStart := ofZ 1; dataEnd := ofRatio 7 2;
                          innerHTML := "Hello"; active := false |};
                       {| dataStart := ofRatio 7 2; dataEnd := Infinity;
                          innerHTML := "World"; active := false |} ]
                     (withElement (Some (Lines 0)) (fields scenario1 scenario1)))))
    by (vm_compute; reflexivity).
  match type of Hc with _ = Some ?obj =>
    destruct (unbundled_synchronizer_active_iff (ofZ 1000) flatLayout obj 1 _ eq_refl)
      as (el' & Hl & _ & _ & _ & _ & Hinf)
  end.
  exists el'. split; [exact Hc|]. split; [exact Hl|].
  apply Hinf; reflexivity.
Defined.

(** ** The length of the animation *)

(** X14.  With the constructor's duration of 200 and step of 10, an
    animation that has been started is cancelled by its 21st tick and not
    before, whatever the target and the scroll position are: the timer
    counts 200, 190, ..., 0 on its own, and the target is never changed by
    a tick. *)
Theorem scroller_stops_after_21_ticks self :
  scrollerTimer self = ofZ 200 ->
  scrollerIntervalStep self = ofZ 10 ->
  scrollerInterval self = true ->
  Forall (fun k => scrollerInterval (ticks k self) = true
                   /\ scrollerTimer (ticks k self) = ofZ (200 - 10 * Z.of_nat k)
                   /\ scrollTop (ticks k self) = scrollTop self) (seq 0 21)
  /\ scrollerInterval (ticks 21 self) = false
  /\ forall n, ticks (21 + n) self = ticks 21 self.
Proof.
  destruct self as [el est les cur dur step tgt timer itv].
  cbn [scrollTop scrollerTimer scrollerIntervalStep scrollerInterval].
  intros -> -> ->.
  split; [|split].
  - repeat (constructor; [by vm_compute|]). constructor.
  - by vm_compute.
  - intros n. rewrite ticks_add. apply ticks_cancelled. by vm_compute.
Qed.

Lemma scroller_stops_after_21_ticks_witness :
  let layout := {| offsetTop := fun _ => ofZ 33; offsetHeight := fun _ => ofZ 17;
                   clientHeight := ofZ 7 |} in
  exists self,
    (gotoLine 0 layout <$> construct (fun s => s) "la la"%string "la la"%string true) = Some self
    /\ scrollerInterval (ticks 20 self) = true
    /\ scrollerInterval (ticks 21 self) = false.
Proof.
  intros layout. eexists. split; [vm_compute; reflexivity|].
  match goal with |- context [ticks 20 ?s] =>
    destruct (scroller_stops_after_21_ticks s eq_refl eq_refl eq_refl)
      as (Hall & H21 & _)
  end.
  split; [|exact H21].
  by destruct (Forall_lookup_1 _ _ 20 20 Hall eq_refl) as (H & _).
Defined.

(** ** findMediaElementBefore *)

Lemma Element_ind_nested (P : Element -> Prop) :
  (forall t cs, Forall P cs -> P (Elem t cs)) -> forall e, P e.
Proof.
  intros H. fix IH 1. intros [t cs]. apply H.
  induction cs as [|c cs IHcs]; constructor; [apply IH|exact IHcs].
Qed.

(** [querySelector] finds a media descendant whenever there is one, and
    only such a descendant. *)
Lemma querySelector_Some e : forall m,
  querySelector e = Some m -> descendant m e /\ isMediaTag m = true.
Proof.
  induction e as [t cs IH] using Element_ind_nested. intros m. cbn [querySelector children].
  assert (Hsub : forall c, c ∈ cs -> c ∈ children (Elem t cs)) by done.
  revert Hsub. generalize (Elem t cs). intros e Hsub.
  induction cs as [|c cs IHcs]; [done|].
  apply Forall_cons in IH as [IHc IHrest].
  destruct (isMediaTag c) eqn:Hc.
  - intros [= <-]. split; [|done]. apply descendant_child, Hsub, list_elem_of_here.
  - destruct (querySelector c) as [m'|] eqn:Hq.
    + intros [= <-]. destruct (IHc _ eq_refl) as [Hd Hm]. split; [|done].
      eapply descendant_deeper; [|exact Hd]. apply Hsub, list_elem_of_here.
    + apply IHcs; [done|]. intros c' Hc'. by apply Hsub, list_elem_of_further.
Qed.

Lemma querySelector_None e :
  querySelector e = None -> forall m, descendant m e -> isMediaTag m = false.
Proof.
  induction e as [t cs IH] using Element_ind_nested. cbn [querySelector children].
  intros Hq m Hd.
  assert (Hall : Forall (fun c => isMediaTag c = false /\ querySelector c = None) cs).
  { clear Hd. induction cs as [|c cs IHcs]; [constructor|].
    apply Forall_cons in IH as [_ IHrest].
    destruct (isMediaTag c) eqn:Hc; [done|].
    destruct (querySelector c) eqn:Hqc; [done|].
    constructor; [done|]. by apply IHcs. }
  rewrite Forall_forall in Hall, IH.
  inversion Hd as [e' Hin|e' c Hin Hdc]; subst; cbn [children] in Hin.
  - by apply Hall.
  - apply (IH c Hin); [|done]. by apply Hall.
Qed.

Lemma holdsMedia_spec c :
  holdsMedia c = true
  <-> isMediaTag c = true \/ exists m, descendant m c /\ isMediaTag m = true.
Proof.
  unfold holdsMedia. rewrite orb_true_iff, bool_decide_eq_true. split.
  - intros [?|[m Hm]]; [by left|]. right. exists m. by apply querySelector_Some.
  - intros [?|(m & Hd & Hm)]; [by left|]. right.
    destruct (querySelector c) eqn:Hq; [done|].
    rewrite (querySelector_None c Hq m Hd) in Hm. done.
Qed.

Lemma scanPrevious_find previous :
  scanPrevious previous
  = (fun c => if isMediaTag c then Media c else Undefined) <$> List.find holdsMedia previous.
Proof.
  induction previous as [|c rest IH]; [done|].
  cbn [scanPrevious List.find]. unfold holdsMedia at 1.
  destruct (isMediaTag c) eqn:Hc; simpl; rewrite ?Hc; [done|].
  destruct (querySelector c) eqn:Hq; simpl; rewrite ?Hc.
  - first [done | case_bool_decide as Hd; [simpl; by rewrite ?Hc | exfalso; apply Hd; eauto]].
  - first [exact IH | case_bool_decide as Hd; [by destruct Hd | exact IH]].
Qed.

Lemma find_app {A} (f : A -> bool) (l1 l2 : list A) :
  List.find f (l1 ++ l2)
  = match List.find f l1 with Some x => Some x | None => List.find f l2 end.
Proof. induction l1 as [|x l1 IH]; simpl; [done|]. by destruct (f x). Qed.

(** The loop and the recursion as one search through the candidates. *)
Lemma findMediaElementBefore_find element :
  findMediaElementBefore element
  = match List.find holdsMedia (candidates element) with
    | Some c => if isMediaTag c then Media c else Undefined
    | None => Null
    end.
Proof.
  induction element as [previous|previous parent IH]; cbn [findMediaElementBefore candidates].
  - rewrite scanPrevious_find. by destruct (List.find holdsMedia previous).
  - rewrite scanPrevious_find, find_app.
    by destruct (List.find holdsMedia previous).
Qed.

Lemma find_split {A} (f : A -> bool) (l : list A) x :
  List.find f l = Some x
  <-> exists before after,
        l = before ++ x :: after /\ f x = true /\ Forall (fun y => f y = false) before.
Proof.
  split.
  - revert x. induction l as [|y l IH]; intros x; simpl; [done|].
    destruct (f y) eqn:Hy.
    + intros [= <-]. by exists [], l.
    + intros Hx. destruct (IH x Hx) as (b & a & -> & ? & ?).
      exists (y :: b), a. repeat split; [done|]. by constructor.
  - intros (b & a & -> & Hx & Hb). induction b as [|y b IH]; simpl.
    + by rewrite Hx.
    + apply Forall_cons in Hb as [Hy Hb]. rewrite Hy. by apply IH.
Qed.

Lemma find_None {A} (f : A -> bool) (l : list A) :
  List.find f l = None <-> Forall (fun y => f y = false) l.
Proof.
  induction l as [|y l IH]; simpl; [split; [constructor|done]|].
  rewrite Forall_cons. destruct (f y); [|by rewrite IH; intuition].
  split; [done|]. by intros [? _].
Qed.

(** X15.  [findMediaElementBefore] returns an element exactly when the
    nearest candidate that is or contains an audio or video element, going
    back through the previous siblings of the element and then of its
    ancestors, is itself one; it returns that candidate.  It never returns
    an element found inside a candidate. *)
Theorem findMediaElementBefore_Media element m :
  findMediaElementBefore element = Media m
  <-> exists before after,
        candidates element = before ++ m :: after
        /\ isMediaTag m = true
        /\ Forall (fun c => holdsMedia c = false) before.
Proof.
  rewrite findMediaElementBefore_find. split.
  - destruct (List.find holdsMedia (candidates element)) as [c|] eqn:Hf; [|done].
    destruct (isMediaTag c) eqn:Hc; [|done]. intros [= <-].
    apply find_split in Hf as (b & a & Hl & _ & Hb). by exists b, a.
  - intros (b & a & Hl & Hm & Hb).
    assert (Hf : List.find holdsMedia (candidates element) = Some m).
    { apply find_split. exists b, a. repeat split; [done| |done].
      unfold holdsMedia. by rewrite Hm. }
    by rewrite Hf, Hm.
Qed.

(** X16.  When the nearest candidate that is or contains an audio or
    video element only contains one, [findMediaElementBefore] returns
    [undefined]: neither the element inside it nor any audio or video
    element further back is returned. *)
Theorem findMediaElementBefore_nested element before c after m :
  candidates element = before ++ c :: after ->
  Forall (fun x => holdsMedia x = false) before ->
  isMediaTag c = false ->
  descendant m c -> isMediaTag m = true ->
  findMediaElementBefore element = Undefined.
Proof.
  intros Hl Hb Hc Hd Hm. rewrite findMediaElementBefore_find.
  assert (Hf : List.find holdsMedia (candidates element) = Some c).
  { apply find_split. exists before, after. repeat split; [done| |done].
    apply holdsMedia_spec. right. by exists m. }
  by rewrite Hf, Hc.
Qed.

Lemma findMediaElementBefore_nested_witness :
  findMediaElementBefore
    (Inside [Elem "DIV" [Elem "AUDIO" []]; Elem "VIDEO" []] (Detached []))
  = Undefined.
Proof.
  apply (findMediaElementBefore_nested
           (Inside [Elem "DIV" [Elem "AUDIO" []]; Elem "VIDEO" []] (Detached []))
           [] (Elem "DIV" [Elem "AUDIO" []]) [Elem "VIDEO" []] (Elem "AUDIO" [])).
  - reflexivity.
  - constructor.
  - reflexivity.
  - apply descendant_child. simpl. apply list_elem_of_here.
  - reflexivity.
Defined.

(** X17.  [findMediaElementBefore] returns [null] exactly when no
    previous sibling of the element or of one of its ancestors is or
    contains an audio or video element. *)
Theorem findMediaElementBefore_Null element :
  findMediaElementBefore element = Null
  <-> forall c, c ∈ candidates element ->
        isMediaTag c = false /\ forall m, descendant m c -> isMediaTag m = false.
Proof.
  rewrite findMediaElementBefore_find. split.
  - destruct (List.find holdsMedia (candidates element)) as [c|] eqn:Hf.
    { by destruct (isMediaTag c). }
    intros _ c Hc. apply find_None in Hf. rewrite Forall_forall in Hf.
    specialize (Hf c Hc). apply not_true_iff_false in Hf. rewrite holdsMedia_spec in Hf.
    split.
    + apply not_true_iff_false. tauto.
    + intros m Hd. apply not_true_iff_false. intros Hm. apply Hf. right. by exists m.
  - intros Hall.
    assert (Hf : List.find holdsMedia (candidates element) = None).
    { apply find_None, Forall_forall. intros c Hc. destruct (Hall c Hc) as [Hc1 Hc2].
      apply not_true_iff_false. rewrite holdsMedia_spec. intros [?|(m & Hd & Hm)].
      - congruence.
      - rewrite (Hc2 m Hd) in Hm. done. }
    by rewrite Hf.
Qed.

(** ** Decoded values and line bounds are numbers *)

(** X18.  Whatever string it is given, [decodeTimeStamp] never returns
    NaN or a negative number: when it returns, the value is zero, positive
    or plus Infinity, so it compares with every playback position. *)
Theorem decodeTimeStamp_nonneg s v :
  decodeTimeStamp s = Some v ->
  nonneg v /\ le zero v = true /\ isNaN v = false.
Proof.
  rewrite decodeTimeStamp_first_stamp_eq.
  pose proof (matchAllFrom_wellFormed s 0) as Hwf. fold (matchAll s) in Hwf.
  destruct (matchAll s) as [|t ts]; [done|]. simpl. intros [= <-].
  apply Forall_cons in Hwf as [Ht _].
  pose proof (timeOf_nonneg t Ht) as Hn.
  split; [done|]. split; [by apply nonneg_le_zero|].
  by apply (le_notNaN_r zero), nonneg_le_zero.
Qed.

Lemma decodeTimeStamp_nonneg_witness :
  le zero (ofZ 65) = true.
Proof.
  exact (proj1 (proj2 (decodeTimeStamp_nonneg "see [1:05.00] and [2:00.00]"%string
                         (ofZ 65) eq_refl))).
Defined.

Lemma matchAll_head_wellFormed s t ts : matchAll s = t :: ts -> wellFormed t.
Proof.
  intros H. pose proof (matchAllFrom_wellFormed s 0) as Hwf.
  fold (matchAll s) in Hwf. rewrite H in Hwf. by apply Forall_cons in Hwf as [? _].
Qed.

Lemma lineStart_nonneg raw st : nonneg (lastTime st) -> nonneg (lineStart raw st).
Proof.
  intros Hl. unfold lineStart. pose proof (matchStart_wellFormed (trim raw)) as Hwf.
  destruct (matchStart (trim raw)); [done|].
  apply Forall_cons in Hwf as [? _]. by apply timeOf_nonneg.
Qed.

Lemma lineEnd_nonneg raw : nonneg (lineEnd raw).
Proof.
  unfold lineEnd. pose proof (matchEnd_wellFormed (trim raw)) as Hwf.
  destruct (matchEnd (trim raw)); [done|].
  apply Forall_cons in Hwf as [? _]. by apply timeOf_nonneg.
Qed.

Lemma parseLineResult_nonneg n0 raw st :
  nonneg (lastTime st) ->
  (forall i el, n0 <= i -> elems st !! i = Some el ->
     nonneg (dataStart el) /\ nonneg (dataEnd el)) ->
  nonneg (lastTime (parseLineResult raw st))
  /\ (forall i el, n0 <= i -> elems (parseLineResult raw st) !! i = Some el ->
        nonneg (dataStart el) /\ nonneg (dataEnd el)).
Proof.
  intros Hl Hels. split.
  - rewrite parseLineResult_lastTime. pose proof (lineEnd_nonneg raw) as He.
    unfold lineEnd in He. destruct (matchEnd (trim raw)); [|done].
    by apply lineStart_nonneg.
  - intros i el Hi Hel.
    destruct (decide (i < length (elems st))) as [Hlt|Hge].
    + destruct (lookup_lt_is_Some_2 _ _ Hlt) as [old Hold].
      destruct (Hels _ _ Hi Hold) as [Hs He].
      destruct (parseLineResult_old raw st i old Hold) as (el' & Hel' & Hst & Hen).
      rewrite Hel in Hel'. inversion Hel'; subst el'. rewrite Hst. split; [done|].
      destruct Hen as [->|(first & r & Hall & ->)]; [done|].
      by apply timeOf_nonneg, (matchAll_head_wellFormed (trim raw) first r).
    + destruct (parseLineResult_new raw st) as (new & Hnew & Hst & Hen).
      assert (i = length (elems st)) as ->.
      { apply lookup_lt_Some in Hel. rewrite parseLineResult_length in Hel. lia. }
      rewrite Hel in Hnew. inversion Hnew; subst new. rewrite Hst, Hen.
      split; [by apply lineStart_nonneg|apply lineEnd_nonneg].
Qed.

Lemma parseLinesResult_nonneg n0 lines : forall st,
  nonneg (lastTime st) ->
  (forall i el, n0 <= i -> elems st !! i = Some el ->
     nonneg (dataStart el) /\ nonneg (dataEnd el)) ->
  forall i el, n0 <= i -> elems (parseLinesResult lines st) !! i = Some el ->
    nonneg (dataStart el) /\ nonneg (dataEnd el).
Proof.
  induction lines as [|raw rest IH]; intros st Hl Hels; [done|].
  simpl. fold (parseLinesResult rest (parseLineResult raw st)).
  destruct (parseLineResult_nonneg n0 raw st Hl Hels) as [Hl' Hels'].
  by apply IH.
Qed.

(** X19.  Every line [parseLyrics] makes has a start and an end that are
    zero, positive or plus Infinity, never NaN and never negative,
    whatever the text: the comparisons of [synchronizer] with the playback
    position are never void for lack of a number. *)
Theorem parseLyrics_bounds_nonneg textOfHTML self self' i el :
  parseLyrics textOfHTML self = Some self' ->
  length (lineElements self) <= i ->
  lineElements self' !! i = Some el ->
  nonneg (dataStart el) /\ nonneg (dataEnd el)
  /\ isNaN (dataStart el) = false /\ isNaN (dataEnd el) = false.
Proof.
  intros Hp Hi Hel.
  assert (Hnn : nonneg (dataStart el) /\ nonneg (dataEnd el)).
  { destruct (element self) as [c|] eqn:Hc.
    2:{ rewrite parseLyrics_no_element in Hp by done. inversion Hp; subst.
        apply lookup_lt_Some in Hel. lia. }
    destruct ((length (splitLines (trim (textContent textOfHTML self c))) <=? 1)%nat
              && innerHTMLHasDiv self c) eqn:Hg.
    { unfold parseLyrics in Hp. rewrite Hc in Hp. cbv zeta in Hp. rewrite Hg in Hp.
      inversion Hp; subst. apply lookup_lt_Some in Hel. lia. }
    rewrite (parseLyrics_parses _ _ _ Hc Hg) in Hp. inversion Hp as [Hs]. clear Hp.
    rewrite <- Hs in Hel.
    replace (lineElements (withLineElements _ _)) with
      (elems (parseLinesResult (splitLines (trim (textContent textOfHTML self c)))
                {| elems := lineElements self; lastTime := zero;
                   lineElementsWithoutEndingTime := [] |})) in Hel by (by destruct self).
    eapply (parseLinesResult_nonneg (length (lineElements self))); [| |exact Hi|exact Hel].
    - done.
    - intros j e Hj He. apply lookup_lt_Some in He. cbn [elems] in He. lia. }
  destruct Hnn as [Hs He]. repeat split; try done.
  - by apply (le_notNaN_r zero), nonneg_le_zero.
  - by apply (le_notNaN_r zero), nonneg_le_zero.
Qed.

Lemma parseLyrics_bounds_nonneg_witness :
  exists self' el,
    parseLyrics (fun s => s) (fields "[0:05.00]la la[0:03.00]"%string EmptyString)
    = Some self'
    /\ lineElements self' !! 0 = Some el
    /\ isNaN (dataStart el) = false /\ isNaN (dataEnd el) = false.
Proof.
  eexists. eexists. split; [vm_compute; reflexivity|]. split; [reflexivity|].
  match goal with |- isNaN (dataStart ?e) = _ /\ _ =>
    destruct (parseLyrics_bounds_nonneg (fun s => s)
                (fields "[0:05.00]la la[0:03.00]"%string EmptyString) _ 0 e
                ltac:(vm_compute; reflexivity) ltac:(simpl; lia) eq_refl)
      as (_ & _ & Hs & He)
  end.
  split; [exact Hs|exact He].
Defined.

(** ** The two synchronizers *)

(** X20.  What bundling changed.  With no override set, the synchronizer
    of the bundle and that of the unbundled source leave a line whose end
    is resolved in the same state; they can differ only on lines whose end
    is Infinity, which the bundle never activates on time alone, and every
    line the bundle activates the unbundled source activates too. *)
Theorem synchronizers_agree time layout self (i : nat) el :
  (currentLine self < 0)%Z ->
  lineElements self !! i = Some el ->
  (resolved el ->
     activeAt i (synchronizer time layout self)
     = activeAt i (Unbundled.synchronizer time layout self))
  /\ (activeAt i (synchronizer time layout self) = true ->
      activeAt i (Unbundled.synchronizer time layout self) = true)
  /\ (dataEnd el = Infinity -> activeAt i (synchronizer time layout self) = false).
Proof.
  intros Hcur Hel.
  assert (Hu : activeAt i (Unbundled.synchronizer time layout self)
               = ge time (dataStart el) && le time (dataEnd el)).
  { unfold activeAt, Unbundled.synchronizer.
    pose proof (unbundled_synchronizeFrom_elems time (lineElements self) 0 false []) as He.
    destruct (Unbundled.synchronizeFrom _ _ _ _ _) as [[els c] a]. cbn [fst] in He.
    rewrite startScroller_lineElements.
    replace (lineElements (withLineElements els self)) with els by (by destruct self).
    by rewrite He, list_lookup_fmap, Hel. }
  assert (Hb : activeAt i (synchronizer time layout self)
               = ge time (dataStart el) && le time (dataEnd el) && neq (dataEnd el) Infinity).
  { rewrite synchronizer_activeAt, Hel. unfold wantActive.
    replace (0 <=? currentLine self)%Z with false by (symmetry; apply Z.leb_gt; lia).
    simpl. by rewrite orb_false_r. }
  rewrite Hu, Hb. split; [|split].
  - intros Hr. apply neq_Infinity in Hr. rewrite Hr. by rewrite andb_true_r.
  - intros H. by apply andb_true_iff in H as [? _].
  - intros ->. by rewrite andb_false_r.
Qed.

Lemma synchronizers_agree_witness :
  exists self,
    construct (fun s => s) scenario1 scenario1 true = Some self
    /\ activeAt 0 (synchronizer (ofZ 2) flatLayout self)
       = activeAt 0 (Unbundled.synchronizer (ofZ 2) flatLayout self).
Proof.
  eexists. split; [vm_compute; reflexivity|].
  match goal with |- activeAt 0 (synchronizer _ _ ?obj) = _ =>
    destruct (synchronizers_agree (ofZ 2) flatLayout obj 0 _ ltac:(simpl; lia) eq_refl)
      as (Hsame & _ & _)
  end.
  apply Hsame. discriminate.
Defined.

Lemma findMediaElementBefore_Media_witness :
  findMediaElementBefore (Inside [Elem "P" []; Elem "audio" []] (Detached [Elem "VIDEO" []]))
  = Media (Elem "audio" []).
Proof.
  apply (proj2 (findMediaElementBefore_Media
                  (Inside [Elem "P" []; Elem "audio" []] (Detached [Elem "VIDEO" []]))
                  (Elem "audio" []))).
  exists [Elem "P" []], [Elem "VIDEO" []].
  split; [reflexivity|]. split; [reflexivity|]. repeat constructor.
Defined.

Lemma findMediaElementBefore_Null_witness :
  findMediaElementBefore (Inside [] (Detached [Elem "P" [Elem "SPAN" []]])) = Null.
Proof.
  apply (proj2 (findMediaElementBefore_Null (Inside [] (Detached [Elem "P" [Elem "SPAN" []]])))).
  intros c Hc. simpl in Hc. apply list_elem_of_singleton in Hc as ->.
  split; [reflexivity|]. intros m Hd.
  inversion Hd as [e Hin|e c' Hin Hd']; subst; simpl in Hin;
    apply list_elem_of_singleton in Hin as ->; [reflexivity|].
  inversion Hd' as [e Hin|e c'' Hin _]; subst; simpl in Hin; by apply elem_of_nil in Hin.
Defined.
